(** * Magnetic Whiteboard Team Builder: board model, drag placement, codec

    A shallow embedding of [src/components/MagneticWhiteboard.jsx]: the board
    state held by the [MagneticWhiteboard] component, the handlers that
    replace it ([addMagnets], [onDragEnd], [handleImport], ...) and the part
    of the [Magnet] component that decides colour and draggability.

    Modelling conventions.
    - A JavaScript number is modelled by the rational it denotes, kept in
      lowest terms ([Qred]); arithmetic is exact, so the rounding of IEEE
      doubles, [NaN] and the infinities are outside the model.
    - A JavaScript string is a [string] whose characters are the code units
      below 256.
    - React state is passed explicitly: a handler that calls
      [setBoard (b => ...)] is a function from the board to the next board. *)

From Stdlib Require Import ZArith NArith QArith Qround Qreduction Lqa Lia.
From Stdlib Require Qcanon.
From Stdlib Require Import Bool List String Ascii.
Import ListNotations.

(** ** JavaScript numbers *)

Module Num.

Definition number := Q.

Definition sub (a b : number) : number := Qminus' a b.
Definition add (a b : number) : number := Qplus' a b.
Definition mul (a b : number) : number := Qmult' a b.
Definition div (a b : number) : number := Qred (a / b).

Definition of_Z (z : Z) : number := inject_Z z.

(** [Math.round]: the nearest integer, a tie going up. *)
Definition Math_round (a : number) : number :=
  of_Z (Qfloor (a + (1 # 2))).

(** [Math.floor]. *)
Definition Math_floor (a : number) : number := of_Z (Qfloor a).

Definition Math_min (a b : number) : number :=
  if Qle_bool a b then a else b.

Definition Math_max (a b : number) : number :=
  if Qle_bool a b then b else a.

(** A number is an integer when its reduced denominator is one. *)
Definition is_integer (a : number) : bool :=
  Pos.eqb (Qden (Qred a)) 1.

(** A number in lowest terms, as the operations above return it. *)
Definition canonical (a : number) : Prop := Qred a = a.

End Num.

Import Num.

Declare Scope js_scope.
Delimit Scope js_scope with js.
Infix "-" := Num.sub : js_scope.
Infix "+" := Num.add : js_scope.
Infix "*" := Num.mul : js_scope.
Infix "/" := Num.div : js_scope.

(** ** The board *)

(** [type: "magnet" | "label"] *)
Inductive ItemType : Type := magnet | label.

Definition ItemType_eqb (a b : ItemType) : bool :=
  match a, b with
  | magnet, magnet | label, label => true
  | _, _ => false
  end.

(** [{id:string, type, text:string, x:number, y:number, color:number}] *)
Record Item : Type := mkItem {
  id : string;
  type : ItemType;
  text : string;
  x : number;
  y : number;
  color : number
}.

Record Settings : Type := mkSettings {
  grid : bool;
  snap : bool;
  locked : bool
}.

Record Board : Type := mkBoard {
  items : list Item;
  settings : Settings
}.

Definition DEFAULT_BOARD : Board :=
  {| items := []; settings := {| grid := true; snap := true; locked := false |} |}.

(** ** Drag placement *)

(** The fields of [getBoundingClientRect()] that the handler reads. *)
Record DOMRect : Type := mkRect {
  left : number;
  top : number;
  width : number;
  height : number
}.

(** [info.point] of a framer-motion pan event. *)
Record Point : Type := mkPoint { point_x : number; point_y : number }.
Record PanInfo : Type := mkInfo { point : Point }.

Definition gridSize : number := 24.

(** The callback that [onDragEnd] maps over [b.items]. *)
Definition drag_item (rect : DOMRect) (x0 y0 : number) (b : Board)
    (dragged : string) (it : Item) : Item :=
  if negb (String.eqb (id it) dragged) then it
  else
    let nx := (x0 - (if ItemType_eqb (type it) label then 0 else 60))%js in
    let ny := (y0 - 20)%js in
    let nx := if snap (settings b)
              then (Math_round (nx / gridSize) * gridSize)%js else nx in
    let ny := if snap (settings b)
              then (Math_round (ny / gridSize) * gridSize)%js else ny in
    let nx := Math_max 0 (Math_min nx (width rect - 120)%js) in
    let ny := Math_max 0 (Math_min ny (height rect - 40)%js) in
    {| id := id it; type := type it; text := text it;
       x := nx; y := ny; color := color it |}.

(** [onDragEnd(id, info)].  [boardRef_current] is [None] while the board
    element is not mounted, otherwise its bounding rectangle. *)
Definition onDragEnd (boardRef_current : option DOMRect)
    (dragged : string) (info : PanInfo) (b : Board) : Board :=
  match boardRef_current with
  | None => b
  | Some rect =>
      let x0 := (point_x (point info) - left rect)%js in
      let y0 := (point_y (point info) - top rect)%js in
      {| items := map (drag_item rect x0 y0 b dragged) (items b);
         settings := settings b |}
  end.

(** A coordinate lies on the grid when it is an integer multiple of
    [gridSize]. *)
Definition on_grid (a : number) : Prop :=
  exists k : Z, a == inject_Z k * gridSize.

Definition demo_item : Item :=
  {| id := "a"; type := magnet; text := "Alice"; x := 100; y := 100; color := 1 |}.
Definition demo_board : Board :=
  {| items := [demo_item]; settings := settings DEFAULT_BOARD |}.
Definition demo_rect : DOMRect := mkRect 0 0 1000 600.
Definition demo_info : PanInfo := mkInfo (mkPoint 2000 300).
Definition demo_dropped : Item :=
  {| id := "a"; type := magnet; text := "Alice"; x := 880; y := 288; color := 1 |}.


(** ** The colour palette and the [Magnet] component *)

(** An entry of [COLORS].  Its [text] property is [text_class] here, [text]
    being taken by the items. *)
Record Color : Type := mkColor {
  name : string;
  bg : string;
  text_class : string
}.

Definition COLORS : list Color := [
  mkColor "Slate" "bg-slate-200" "text-slate-900";
  mkColor "Blue" "bg-blue-200" "text-blue-900";
  mkColor "Green" "bg-green-200" "text-green-900";
  mkColor "Yellow" "bg-yellow-200" "text-yellow-900";
  mkColor "Orange" "bg-orange-200" "text-orange-900";
  mkColor "Red" "bg-red-200" "text-red-900";
  mkColor "Purple" "bg-purple-200" "text-purple-900";
  mkColor "Pink" "bg-pink-200" "text-pink-900"
].

(** [arr[n]] for a number [n]: the element when [n] is an integer index
    inside the array, [undefined] ([None]) otherwise. *)
Definition array_get {A : Type} (arr : list A) (n : number) : option A :=
  if is_integer n && Qle_bool 0 n
  then nth_error arr (Z.to_nat (Qfloor n))
  else None.

(** [a ?? b] where [None] stands for [undefined]. *)
Definition nullish {A : Type} (a b : option A) : option A :=
  match a with
  | Some v => Some v
  | None => b
  end.

(** The props that [Magnet] hands to its [motion.div]. *)
Record MotionDiv : Type := mkMotionDiv {
  style_left : number;
  style_top : number;
  drag : bool;
  dragMomentum : bool;
  div_onDragEnd : PanInfo -> Board -> Board;
  div_color : option Color;
  isLabel : bool
}.

(** [function Magnet({ item, locked, colorIdx, ..., onDragEnd })] *)
Definition Magnet (item : Item) (locked : bool) (colorIdx : number)
    (onDragEnd : string -> PanInfo -> Board -> Board) : MotionDiv :=
  let color := nullish (array_get COLORS colorIdx) (array_get COLORS 0) in
  {| style_left := x item;
     style_top := y item;
     drag := negb locked;
     dragMomentum := false;
     div_onDragEnd := fun info => onDragEnd (id item) info;
     div_color := color;
     isLabel := ItemType_eqb (type item) label |}.

(** [board.items.map((it) => <Magnet item={it} locked={board.settings.locked}
    colorIdx={it.color} onDragEnd={onDragEnd} />)] *)
Definition render_items (boardRef_current : option DOMRect) (b : Board)
    : list MotionDiv :=
  map (fun it => Magnet it (locked (settings b)) (color it)
                   (onDragEnd boardRef_current))
      (items b).

(** The contract of framer-motion's [drag] prop, which is not part of this
    repository: an element whose [drag] is false starts no drag gesture and
    so never calls its [onDragEnd]; a draggable one calls it once, on
    release.  A gesture is one unit: the board does not change between
    press and release. *)
Definition pan_release (el : MotionDiv) (info : PanInfo) (b : Board) : Board :=
  if drag el then div_onDragEnd el info b else b.

(** The user drags the [i]-th rendered item and releases it at [info]. *)
Definition drag_gesture (boardRef_current : option DOMRect)
    (b : Board) (g : nat * PanInfo) : Board :=
  match nth_error (render_items boardRef_current b) (fst g) with
  | Some el => pan_release el (snd g) b
  | None => b
  end.

Definition locked_board : Board :=
  {| items := [demo_item];
     settings := {| grid := true; snap := true; locked := true |} |}.

(** ** Pasted names *)

Definition chars := list ascii.

(** The code units below 256 that [String.prototype.trim] removes: TAB, LF,
    VT, FF, CR, SPACE and NBSP. *)
Definition is_space (c : ascii) : bool :=
  existsb (Ascii.eqb c)
    ["009"; "010"; "011"; "012"; "013"; " "; "160"]%char.

(** The character class [[\n,;]] of [parseNames]. *)
Definition is_sep (c : ascii) : bool :=
  existsb (Ascii.eqb c) ["010"; ","; ";"]%char.

Fixpoint trimStart (s : chars) : chars :=
  match s with
  | c :: s' => if is_space c then trimStart s' else s
  | [] => []
  end.

Definition trimEnd (s : chars) : chars := rev (trimStart (rev s)).

Definition trim_chars (s : chars) : chars := trimEnd (trimStart s).

(** [s.trim()] *)
Definition trim (s : string) : string :=
  string_of_list_ascii (trim_chars (list_ascii_of_string s)).

(** [s.split(/[\n,;]+/)]: the pieces between maximal runs of separators.
    [cur] holds the piece being read, reversed; [in_sep] says that the
    previous character was a separator.  A separator at either end of the
    text leaves an empty piece there, as in JavaScript. *)
Fixpoint split_from (in_sep : bool) (cur : chars) (s : chars) : list chars :=
  match s with
  | [] => [rev cur]
  | c :: s' =>
      if is_sep c
      then if in_sep then split_from true cur s'
           else rev cur :: split_from true [] s'
      else split_from false (c :: cur) s'
  end.

Definition split_seps (s : string) : list string :=
  map string_of_list_ascii (split_from false [] (list_ascii_of_string s)).

(** [Boolean(s)] for a string: true unless it is empty. *)
Definition Boolean_string (s : string) : bool :=
  negb (String.eqb s "").

(** [function parseNames(text)] *)
Definition parseNames (text : string) : list string :=
  filter Boolean_string (map trim (split_seps text)).

(** [arr.map((v, i) => f(v, i))] *)
Fixpoint mapi_from {A B : Type} (f : A -> nat -> B) (i : nat) (l : list A)
    : list B :=
  match l with
  | [] => []
  | v :: l' => f v i :: mapi_from f (S i) l'
  end.

Definition mapi {A B : Type} (f : A -> nat -> B) (l : list A) : list B :=
  mapi_from f 0 l.

(** The remainder [a % b] and [Math.floor(a / b)] for an array index [a]. *)
Definition index_rem (i : nat) (b : Z) : number := of_Z (Z.rem (Z.of_nat i) b).
Definition index_div_floor (i : nat) (b : Z) : number :=
  Math_floor (of_Z (Z.of_nat i) / of_Z b)%js.

(** The state of the [MagneticWhiteboard] component that the text handlers
    touch.  [draws] counts the calls of [uid()] so far. *)
Record App : Type := mkApp {
  board : Board;
  pasteText : string;
  selectedColor : number;
  draws : nat
}.

Section Handlers.

(** [uid()] returns [Math.random().toString(36).slice(2, 9)]; the random
    source is an arbitrary stream of strings, read in order. *)
Variable uid : nat -> string.

Definition baseX : number := 24.
Definition baseY : number := 24.

(** The magnets that [addMagnets] builds from the parsed names. *)
Definition new_magnets (first_draw : nat) (color0 : number)
    (names : list string) : list Item :=
  mapi (fun n i =>
          {| id := uid (first_draw + i);
             type := magnet;
             text := n;
             x := (baseX + index_rem i 4 * 140)%js;
             y := (baseY + index_div_floor i 4 * 60)%js;
             color := color0 |})
       names.

(** [const addMagnets = () => { ... }].  The unused [rect] of the source
    is left out. *)
Definition addMagnets (s : App) : App :=
  if negb (Boolean_string (trim (pasteText s))) then s
  else
    let names := parseNames (pasteText s) in
    let next := new_magnets (draws s) (selectedColor s) names in
    {| board := {| items := items (board s) ++ next;
                   settings := settings (board s) |};
       pasteText := "";
       selectedColor := selectedColor s;
       draws := draws s + List.length names |}.

End Handlers.

Definition roster : string :=
  "Alice, Bob;  Carol" ++ String "010" "Dave".

Definition demo_uid (n : nat) : string :=
  String (ascii_of_nat (97 + n)) "".

Definition blank_app : App :=
  {| board := demo_board; pasteText := "   "; selectedColor := 1; draws := 0 |}.

Definition roster_app : App :=
  {| board := DEFAULT_BOARD; pasteText := roster; selectedColor := 1; draws := 0 |}.

(** A text that is empty or holds only whitespace. *)
Definition blank (s : string) : Prop :=
  Forall (fun c => is_space c = true) (list_ascii_of_string s).

(** A name as [parseNames] returns it: not empty, without separator, with
    no whitespace at either end. *)
Definition clean_name (n : string) : Prop :=
  n <> ""%string /\ trim n = n /\
  Forall (fun c => is_sep c = false) (list_ascii_of_string n).

(** The text does not begin with whitespace. *)
Definition no_lead (s : chars) : Prop :=
  match s with
  | [] => True
  | c :: _ => is_space c = false
  end.

(** ** JSON text

    [JSON.stringify (v, null, 2)] and [JSON.parse] belong to the JavaScript
    runtime.  They are modelled on the values that JSON can carry.  An
    object is the list of its properties in insertion order (board
    documents have no integer-like keys, which JavaScript would enumerate
    first).  A number is written in plain decimal notation, without
    exponent. *)

Module JSON.

Unset Elimination Schemes.
Inductive value : Type :=
| Null
| JBool (b : bool)
| JNum (n : number)
| JStr (s : string)
| JArr (elems : list value)
| JObj (members : list (string * value)).
Set Elimination Schemes.

Definition quote : ascii := "034".
Definition backslash : ascii := "092".
Definition newline : ascii := "010".

(** *** Numbers *)

Definition digit_char (d : N) : ascii := ascii_of_N (48 + d).

Definition is_digit (c : ascii) : bool :=
  (48 <=? N_of_ascii c)%N && (N_of_ascii c <=? 57)%N.

Definition digit_val (c : ascii) : N := N_of_ascii c - 48.

(** The [k] low decimal digits of [n], most significant first. *)
Fixpoint fixed_digits (k : nat) (n : N) : chars :=
  match k with
  | O => []
  | S k' => fixed_digits k' (n / 10) ++ [digit_char (n mod 10)]
  end.

Fixpoint count_digits (fuel : nat) (n : N) : nat :=
  match fuel with
  | O => 1
  | S f => if (n <? 10)%N then 1%nat else S (count_digits f (n / 10))
  end.

Definition print_N (n : N) : chars :=
  fixed_digits (count_digits (S (N.to_nat (N.log2 n))) n) n.

(** The least [k], searched upwards from [k] with [p = 10^k], such that
    [d] divides [10^k]; 17 digits when the search runs out, which happens
    only for a fraction without finite decimal expansion. *)
Fixpoint find_scale (fuel k : nat) (p d : N) : nat :=
  match fuel with
  | O => 17
  | S f => if (p mod d =? 0)%N then k else find_scale f (S k) (p * 10) d
  end.

Definition frac_digits (d : positive) : nat :=
  find_scale (S (N.to_nat (N.log2 (Npos d)))) 0 1 (Npos d).

(** [Number::toString] for the numbers of the model. *)
Definition print_number (q : number) : chars :=
  let k := frac_digits (Qden q) in
  let m := (Z.abs_N (Qnum q) * 10 ^ N.of_nat k / Npos (Qden q))%N in
  (if (Qnum q <? 0)%Z then ["-"%char] else []) ++
  print_N (m / 10 ^ N.of_nat k) ++
  match k with
  | O => []
  | S _ => "."%char :: fixed_digits k m
  end.

Fixpoint read_digits (acc : N) (k : nat) (s : chars) : N * nat * chars :=
  match s with
  | c :: r =>
      if is_digit c then read_digits (acc * 10 + digit_val c) (S k) r
      else (acc, k, s)
  | [] => (acc, k, [])
  end.

Definition starts_with_digit (s : chars) : bool :=
  match s with
  | c :: _ => is_digit c
  | [] => false
  end.

(** [int = "0" | digit1-9 digits]: no leading zero. *)
Definition parse_int (s : chars) : option (N * chars) :=
  match s with
  | c :: r =>
      if Ascii.eqb c "0" then
        if starts_with_digit r then None else Some (0%N, r)
      else if is_digit c then
        let '(n, _, r') := read_digits 0 0 s in Some (n, r')
      else None
  | [] => None
  end.

(** [frac = "." digits+], optional. *)
Definition parse_frac (s : chars) : option (N * nat * chars) :=
  match s with
  | c :: r =>
      if Ascii.eqb c "." then
        match read_digits 0 0 r with
        | (_, O, _) => None
        | res => Some res
        end
      else Some (0%N, O, s)
  | [] => Some (0%N, O, [])
  end.

(** [exp = ("e" | "E") ("+" | "-")? digits+], optional. *)
Definition parse_exp (s : chars) : option (Z * chars) :=
  match s with
  | c :: r =>
      if Ascii.eqb c "e" || Ascii.eqb c "E" then
        let '(neg, r1) :=
          match r with
          | c1 :: r1 =>
              if Ascii.eqb c1 "-" then (true, r1)
              else if Ascii.eqb c1 "+" then (false, r1)
              else (false, r)
          | [] => (false, r)
          end in
        match read_digits 0 0 r1 with
        | (_, O, _) => None
        | (e, _, r2) => Some (if neg then (- Z.of_N e)%Z else Z.of_N e, r2)
        end
      else Some (0%Z, s)
  | [] => Some (0%Z, [])
  end.

(** The number that a literal denotes. *)
Definition literal_value (neg : bool) (ip fp : N) (k : nat) (e : Z) : number :=
  let mant := Z.of_N (ip * 10 ^ N.of_nat k + fp) in
  let q := (mant # Z.to_pos (10 ^ Z.of_nat k)) * Qpower 10 e in
  Qred (if neg then - q else q).

Definition parse_number (s : chars) : option (number * chars) :=
  let '(neg, s1) :=
    match s with
    | c :: r => if Ascii.eqb c "-" then (true, r) else (false, s)
    | [] => (false, s)
    end in
  match parse_int s1 with
  | None => None
  | Some (ip, s2) =>
      match parse_frac s2 with
      | None => None
      | Some (fp, k, s3) =>
          match parse_exp s3 with
          | None => None
          | Some (e, s4) => Some (literal_value neg ip fp k e, s4)
          end
      end
  end.

(** The numbers that have a finite decimal expansion: every finite double
    is one.  On these, kept in lowest terms, printing is exact. *)
Definition finite_decimal (a : number) : Prop :=
  exists k : nat, (Z.pos (Qden a) | 10 ^ Z.of_nat k)%Z.

Definition printable (a : number) : Prop :=
  canonical a /\ finite_decimal a.

(** What may follow a number in a text: anything that does not continue
    the literal. *)
Definition number_end (rest : chars) : bool :=
  match rest with
  | [] => true
  | c :: _ =>
      negb (is_digit c || Ascii.eqb c "." || Ascii.eqb c "e" || Ascii.eqb c "E")
  end.

(** *** Strings *)

Definition hex_char (d : N) : ascii :=
  if (d <? 10)%N then ascii_of_N (48 + d) else ascii_of_N (87 + d).

Definition hex_val (c : ascii) : option N :=
  let n := N_of_ascii c in
  if (48 <=? n)%N && (n <=? 57)%N then Some (n - 48)%N
  else if (97 <=? n)%N && (n <=? 102)%N then Some (n - 87)%N
  else if (65 <=? n)%N && (n <=? 70)%N then Some (n - 55)%N
  else None.

(** [QuoteJSONString], one code unit at a time. *)
Definition escape_char (c : ascii) : chars :=
  let n := N_of_ascii c in
  if (n =? 8)%N then [backslash; "b"%char]
  else if (n =? 9)%N then [backslash; "t"%char]
  else if (n =? 10)%N then [backslash; "n"%char]
  else if (n =? 12)%N then [backslash; "f"%char]
  else if (n =? 13)%N then [backslash; "r"%char]
  else if (n =? 34)%N then [backslash; quote]
  else if (n =? 92)%N then [backslash; backslash]
  else if (n <? 32)%N
       then [backslash; "u"%char; "0"%char; "0"%char;
             hex_char (n / 16); hex_char (n mod 16)]
  else [c].

Definition print_string (s : string) : chars :=
  quote :: flat_map escape_char (list_ascii_of_string s) ++ [quote].

(** The character that a one-letter escape stands for. *)
Definition unescape (e : ascii) : option ascii :=
  if Ascii.eqb e quote then Some quote
  else if Ascii.eqb e backslash then Some backslash
  else if Ascii.eqb e "/" then Some "/"%char
  else if Ascii.eqb e "b" then Some "008"%char
  else if Ascii.eqb e "f" then Some "012"%char
  else if Ascii.eqb e "n" then Some "010"%char
  else if Ascii.eqb e "r" then Some "013"%char
  else if Ascii.eqb e "t" then Some "009"%char
  else None.

(** [\uXXXX].  A code unit of 256 or more has no place in the strings of
    the model, so such a text is not read. *)
Definition unescape_hex (a b c d : ascii) : option ascii :=
  match hex_val a, hex_val b, hex_val c, hex_val d with
  | Some x3, Some x2, Some x1, Some x0 =>
      let n := (((x3 * 16 + x2) * 16 + x1) * 16 + x0)%N in
      if (n <? 256)%N then Some (ascii_of_N n) else None
  | _, _, _, _ => None
  end.

Definition cons_to {A B : Type} (a : A) (r : option (list A * B))
    : option (list A * B) :=
  match r with
  | Some (l, rest) => Some (a :: l, rest)
  | None => None
  end.

(** The characters after an opening quote, up to the closing one. *)
Fixpoint parse_string_body (s : chars) : option (chars * chars) :=
  match s with
  | [] => None
  | c :: r =>
      if Ascii.eqb c quote then Some ([], r)
      else if Ascii.eqb c backslash then
        match r with
        | [] => None
        | e :: r' =>
            if Ascii.eqb e "u" then
              match r' with
              | a :: b :: c' :: d :: r'' =>
                  match unescape_hex a b c' d with
                  | Some u => cons_to u (parse_string_body r'')
                  | None => None
                  end
              | _ => None
              end
            else
              match unescape e with
              | Some u => cons_to u (parse_string_body r')
              | None => None
              end
        end
      else if (N_of_ascii c <? 32)%N then None
      else cons_to c (parse_string_body r)
  end.

Definition parse_string (s : chars) : option (string * chars) :=
  match parse_string_body s with
  | Some (body, rest) => Some (string_of_list_ascii body, rest)
  | None => None
  end.

(** *** Values *)

Definition indent_step : nat := 2.

Definition spaces (n : nat) : chars := repeat " "%char n.

Definition lit (s : string) : chars := list_ascii_of_string s.

(** The elements after the first, each on its own line. *)
Definition print_elems (pr : value -> chars) (ind' : nat)
    : list value -> chars :=
  fix more (l : list value) : chars :=
    match l with
    | [] => []
    | v :: l' => ","%char :: newline :: spaces ind' ++ pr v ++ more l'
    end.

(** The properties after the first. *)
Definition print_members (pr : value -> chars) (ind' : nat)
    : list (string * value) -> chars :=
  fix more (l : list (string * value)) : chars :=
    match l with
    | [] => []
    | kv :: l' =>
        ","%char :: newline :: spaces ind' ++
        print_string (fst kv) ++ ":"%char :: " "%char :: pr (snd kv) ++ more l'
    end.

(** [JSON.stringify (v, null, 2)], at indentation [ind]. *)
Fixpoint stringify_at (ind : nat) (v : value) : chars :=
  let ind' := (ind + indent_step)%nat in
  match v with
  | Null => lit "null"
  | JBool true => lit "true"
  | JBool false => lit "false"
  | JNum n => print_number n
  | JStr s => print_string s
  | JArr [] => lit "[]"
  | JArr (v0 :: vs) =>
      "["%char :: newline :: spaces ind' ++ stringify_at ind' v0 ++
      print_elems (stringify_at ind') ind' vs ++
      newline :: spaces ind ++ ["]"%char]
  | JObj [] => lit "{}"
  | JObj (kv :: ms) =>
      "{"%char :: newline :: spaces ind' ++
      print_string (fst kv) ++ ":"%char :: " "%char ::
      stringify_at ind' (snd kv) ++
      print_members (stringify_at ind') ind' ms ++
      newline :: spaces ind ++ ["}"%char]
  end.

Definition stringify (v : value) : string :=
  string_of_list_ascii (stringify_at 0 v).

(** JSON whitespace: space, TAB, LF, CR. *)
Definition is_ws (c : ascii) : bool :=
  existsb (Ascii.eqb c) [" "; "009"; "010"; "013"]%char.

Fixpoint skip_ws (s : chars) : chars :=
  match s with
  | c :: r => if is_ws c then skip_ws r else s
  | [] => []
  end.

(** [s] begins with the characters of [p]: the rest of [s], if so. *)
Fixpoint strip_prefix (p s : chars) : option chars :=
  match p, s with
  | [], _ => Some s
  | a :: p', b :: s' => if Ascii.eqb a b then strip_prefix p' s' else None
  | _ :: _, [] => None
  end.

(** [CreateDataProperty] in [JSON.parse]: a repeated key keeps its place
    and takes the later value. *)
Fixpoint obj_set (k : string) (v : value) (o : list (string * value))
    : list (string * value) :=
  match o with
  | [] => [(k, v)]
  | (k', v') :: o' =>
      if String.eqb k' k then (k', v) :: o' else (k', v') :: obj_set k v o'
  end.

Definition obj_of_members (ms : list (string * value)) : list (string * value) :=
  fold_left (fun o kv => obj_set (fst kv) (snd kv) o) ms [].

(** The recursive-descent reader.  [fuel] bounds the nesting and the number
    of elements; [parse] gives it more than any text can use (see
    [parse_value_fuel]). *)
Fixpoint parse_value (fuel : nat) (s : chars) : option (value * chars) :=
  match fuel with
  | O => None
  | S f =>
      match skip_ws s with
      | [] => None
      | c :: r =>
          if Ascii.eqb c "n" then
            option_map (pair Null) (strip_prefix (lit "ull") r)
          else if Ascii.eqb c "t" then
            option_map (pair (JBool true)) (strip_prefix (lit "rue") r)
          else if Ascii.eqb c "f" then
            option_map (pair (JBool false)) (strip_prefix (lit "alse") r)
          else if Ascii.eqb c quote then
            match parse_string r with
            | Some (str, r') => Some (JStr str, r')
            | None => None
            end
          else if Ascii.eqb c "[" then
            match skip_ws r with
            | c' :: r' =>
                if Ascii.eqb c' "]" then Some (JArr [], r')
                else
                  match parse_elements f r with
                  | Some (vs, r'') => Some (JArr vs, r'')
                  | None => None
                  end
            | [] => None
            end
          else if Ascii.eqb c "{" then
            match skip_ws r with
            | c' :: r' =>
                if Ascii.eqb c' "}" then Some (JObj [], r')
                else
                  match parse_members f r with
                  | Some (ms, r'') => Some (JObj (obj_of_members ms), r'')
                  | None => None
                  end
            | [] => None
            end
          else
            match parse_number (c :: r) with
            | Some (n, r') => Some (JNum n, r')
            | None => None
            end
      end
  end

with parse_elements (fuel : nat) (s : chars) : option (list value * chars) :=
  match fuel with
  | O => None
  | S f =>
      match parse_value f s with
      | None => None
      | Some (v, r) =>
          match skip_ws r with
          | c :: r' =>
              if Ascii.eqb c "," then
                match parse_elements f r' with
                | Some (vs, r'') => Some (v :: vs, r'')
                | None => None
                end
              else if Ascii.eqb c "]" then Some ([v], r')
              else None
          | [] => None
          end
      end
  end

with parse_members (fuel : nat) (s : chars)
    : option (list (string * value) * chars) :=
  match fuel with
  | O => None
  | S f =>
      match skip_ws s with
      | q :: r0 =>
          if Ascii.eqb q quote then
            match parse_string r0 with
            | None => None
            | Some (k, r1) =>
                match skip_ws r1 with
                | c :: r2 =>
                    if Ascii.eqb c ":" then
                      match parse_value f r2 with
                      | None => None
                      | Some (v, r3) =>
                          match skip_ws r3 with
                          | c' :: r4 =>
                              if Ascii.eqb c' "," then
                                match parse_members f r4 with
                                | Some (ms, r5) => Some ((k, v) :: ms, r5)
                                | None => None
                                end
                              else if Ascii.eqb c' "}" then Some ([(k, v)], r4)
                              else None
                          | [] => None
                          end
                      end
                    else None
                | [] => None
                end
            end
          else None
      | [] => None
      end
  end.

(** [JSON.parse (text)]: one value, then nothing but whitespace.  [None]
    stands for the [SyntaxError] that is thrown otherwise. *)
Definition parse (text : string) : option value :=
  let s := list_ascii_of_string text in
  match parse_value (2 * List.length s + 1) s with
  | Some (v, r) =>
      match skip_ws r with
      | [] => Some v
      | _ :: _ => None
      end
  | None => None
  end.

(** The values on which printing and reading are inverse: every number is
    a finite decimal in lowest terms and no object repeats a key. *)
Unset Elimination Schemes.
Inductive wf_value : value -> Prop :=
| wf_Null : wf_value Null
| wf_JBool b : wf_value (JBool b)
| wf_JNum n : printable n -> wf_value (JNum n)
| wf_JStr s : wf_value (JStr s)
| wf_JArr l : Forall wf_value l -> wf_value (JArr l)
| wf_JObj ms :
    NoDup (map fst ms) -> Forall (fun kv => wf_value (snd kv)) ms ->
    wf_value (JObj ms).
Set Elimination Schemes.

(** What follows a printed value inside a document: a comma or a line
    break, or nothing. *)
Definition delimited (rest : chars) : bool :=
  match rest with
  | [] => true
  | c :: _ => Ascii.eqb c "," || Ascii.eqb c newline
  end.

(** The first character of any printed value. *)
Definition value_start (c : ascii) : bool :=
  is_digit c || existsb (Ascii.eqb c) ["-"; "n"; "t"; "f"; quote; "["; "{"]%char.

(** Induction on values, with the hypothesis for every element of an array
    and every property of an object. *)
Fixpoint value_ind (P : value -> Prop)
    (HNull : P Null) (HBool : forall b, P (JBool b))
    (HNum : forall n, P (JNum n)) (HStr : forall s, P (JStr s))
    (HArr : forall l, Forall P l -> P (JArr l))
    (HObj : forall ms, Forall (fun kv => P (snd kv)) ms -> P (JObj ms))
    (v : value) {struct v} : P v :=
  match v with
  | Null => HNull
  | JBool b => HBool b
  | JNum n => HNum n
  | JStr s => HStr s
  | JArr l =>
      HArr l ((fix all (l : list value) : Forall P l :=
                 match l with
                 | [] => Forall_nil P
                 | v' :: l' =>
                     Forall_cons v'
                       (value_ind P HNull HBool HNum HStr HArr HObj v') (all l')
                 end) l)
  | JObj ms =>
      HObj ms ((fix all (l : list (string * value))
                  : Forall (fun kv => P (snd kv)) l :=
                  match l with
                  | [] => Forall_nil _
                  | kv :: l' =>
                      Forall_cons kv
                        (value_ind P HNull HBool HNum HStr HArr HObj (snd kv))
                        (all l')
                  end) ms)
  end.

(** [v] is read back from its text wherever it is printed, given enough
    fuel. *)
Definition reads_back (v : value) : Prop :=
  exists n, forall fuel ind rest,
    (n <= fuel)%nat -> delimited rest = true ->
    parse_value fuel (stringify_at ind v ++ rest) = Some (v, rest).


End JSON.

Import JSON.

(** ** Export and import *)

(** The JavaScript object that a board is, with its properties in the order
    in which the source creates them. *)
Definition type_string (t : ItemType) : string :=
  match t with
  | magnet => "magnet"
  | label => "label"
  end.

Definition value_of_Item (it : Item) : value :=
  JObj [("id", JStr (id it)); ("type", JStr (type_string (type it)));
        ("text", JStr (text it)); ("x", JNum (x it)); ("y", JNum (y it));
        ("color", JNum (color it))]%string.

Definition value_of_Settings (s : Settings) : value :=
  JObj [("grid", JBool (grid s)); ("snap", JBool (snap s));
        ("locked", JBool (locked s))]%string.

Definition value_of_Board (b : Board) : value :=
  JObj [("items", JArr (map value_of_Item (items b)));
        ("settings", value_of_Settings (settings b))]%string.

(** The file that [handleExport] offers for download. *)
Record Download : Type := mkDownload {
  download : string;
  mime : string;
  data : string
}.

(** [const handleExport = () => { ... }] *)
Definition handleExport (board : value) : Download :=
  {| download := "whiteboard-teams.json";
     mime := "application/json";
     data := JSON.stringify board |}.

(** [json?.k] for a key that no prototype defines, such as [items] and
    [settings]: the own property of an object, [undefined] ([None]) on
    [null], on a missing key and on every other value. *)
Fixpoint lookup (k : string) (ms : list (string * value)) : option value :=
  match ms with
  | [] => None
  | (k', v) :: ms' => if String.eqb k' k then Some v else lookup k ms'
  end.

Definition optional_get (json : value) (k : string) : option value :=
  match json with
  | JObj ms => lookup k ms
  | _ => None
  end.

(** [Boolean(v)]: [undefined], [null], [false], [0] and [""] are falsy. *)
Definition truthy (v : option value) : bool :=
  match v with
  | None => false
  | Some Null => false
  | Some (JBool b) => b
  | Some (JNum n) => negb (Qeq_bool n 0)
  | Some (JStr s) => Boolean_string s
  | Some (JArr _) => true
  | Some (JObj _) => true
  end.

(** The [onchange] handler that [handleImport] installs.  [file] is the
    text of the chosen file, [None] when no file was chosen.  The result is
    the board afterwards and the [alert], if one is shown. *)
Definition handleImport (file : option string) (board : value)
    : value * option string :=
  match file with
  | None => (board, None)
  | Some text =>
      match JSON.parse text with
      | Some json =>
          if truthy (optional_get json "items") &&
             truthy (optional_get json "settings")
          then (json, None)
          else (board, Some "Invalid file format."%string)
      | None => (board, Some "Could not parse file."%string)
      end
  end.

(** Every number of the board has a finite decimal expansion. *)
Definition item_printable (it : Item) : Prop :=
  printable (x it) /\ printable (y it) /\ printable (color it).

Definition board_printable (b : Board) : Prop :=
  Forall item_printable (items b).

Definition rect_printable (r : DOMRect) : Prop :=
  printable (left r) /\ printable (top r) /\
  printable (width r) /\ printable (height r).

(** The top-level value has the key [k]. *)
Definition has_key (json : value) (k : string) : bool :=
  match json with
  | JObj ms => existsb (fun kv => String.eqb (fst kv) k) ms
  | _ => false
  end.

Definition dq : string := String quote "".

(** [{"items":[],"settings":null}] *)
Definition falsy_settings_text : string :=
  "{" ++ dq ++ "items" ++ dq ++ ":[]," ++ dq ++ "settings" ++ dq ++ ":null}".

Definition label_item : Item :=
  {| id := "k3x9q2a"; type := label; text := "Team A";
     x := 1237 # 10; y := 5 # 4; color := 3 |}.

Definition team_board : Board :=
  {| items := [demo_dropped; label_item];
     settings := {| grid := true; snap := false; locked := true |} |}.

(** The values that JavaScript treats as false in a condition:
    [undefined], [null], [false], [0] and the empty string. *)
Definition falsy (o : option value) : Prop :=
  o = None \/ o = Some Null \/ o = Some (JBool false) \/
  (exists n, o = Some (JNum n) /\ n == 0) \/ o = Some (JStr "").

(** The import rule as the specification words it: a parsed document is
    rejected exactly when it lacks one of the keys [items] and
    [settings]. *)
Definition rejects_exactly_missing_keys : Prop :=
  forall (cur : value) (text : string) (json : value),
    JSON.parse text = Some json ->
    (snd (handleImport (Some text) cur) = Some "Invalid file format."%string
     <-> has_key json "items" && has_key json "settings" = false).

(** ** The other handlers of [MagneticWhiteboard] *)

(** The keys that the toolbar passes to [toggle]. *)
Inductive SettingKey : Type := key_grid | key_snap | key_locked.

(** [b.settings[key]] *)
Definition get_setting (key : SettingKey) (s : Settings) : bool :=
  match key with
  | key_grid => grid s
  | key_snap => snap s
  | key_locked => locked s
  end.

(** [{ ...b.settings, [key]: v }] *)
Definition set_setting (key : SettingKey) (v : bool) (s : Settings) : Settings :=
  match key with
  | key_grid => {| grid := v; snap := snap s; locked := locked s |}
  | key_snap => {| grid := grid s; snap := v; locked := locked s |}
  | key_locked => {| grid := grid s; snap := snap s; locked := v |}
  end.

(** [const toggle = (key) => setBoard((b) => ...)] *)
Definition toggle (key : SettingKey) (b : Board) : Board :=
  {| items := items b;
     settings := set_setting key (negb (get_setting key (settings b)))
                             (settings b) |}.

(** [const printBoard = () => { ... }]: the board afterwards and the delay,
    in milliseconds, after which [window.print()] is called. *)
Definition printBoard (b : Board) : Board * nat :=
  (if negb (locked (settings b)) then toggle key_locked b else b, 50%nat).

(** [const clearBoard = () => { ... }]; [confirmed] is the answer to
    [confirm("Clear all magnets and labels?")]. *)
Definition clearBoard (confirmed : bool) (b : Board) : Board :=
  if negb confirmed then b else DEFAULT_BOARD.

(** [onChangeText] of the item with id [it_id]:
    [b.items.map((x) => (x.id === it.id ? { ...x, text } : x))] *)
Definition onChangeText (it_id : string) (new_text : string) (b : Board) : Board :=
  {| items := map (fun x0 =>
                     if String.eqb (id x0) it_id
                     then {| id := id x0; type := type x0; text := new_text;
                             x := x x0; y := y x0; color := color x0 |}
                     else x0)
                  (items b);
     settings := settings b |}.

(** [onDelete] of the item with id [it_id]:
    [b.items.filter((x) => x.id !== it.id)] *)
Definition onDelete (it_id : string) (b : Board) : Board :=
  {| items := filter (fun x0 => negb (String.eqb (id x0) it_id)) (items b);
     settings := settings b |}.

Section RandomHandlers.

(** [uid ()] and [Math.random ()] read one stream of draws: [uid n] is the
    string that [uid] makes of the [n]-th draw and [random n] the number
    that [Math.random] returns for it. *)
Variable uid : nat -> string.
Variable random : nat -> number.

(** [const addLabel = () => { ... }] *)
Definition addLabel (s : App) : App :=
  let id0 := uid (draws s) in
  {| board :=
       {| items := items (board s) ++
                   [{| id := id0;
                       type := label;
                       text := "Team A";
                       x := (24 + random (draws s + 1) * 100)%js;
                       y := (24 + random (draws s + 2) * 60)%js;
                       color := 3 |}];
          settings := settings (board s) |};
     pasteText := pasteText s;
     selectedColor := selectedColor s;
     draws := draws s + 3 |}.

(** What the user can do to the board through the rendered page. *)
Inductive Event : Type :=
| TypePaste (t : string)
| ClickColor (i : nat)
| ClickAddMagnets
| ClickAddLabel
| ClickToggle (key : SettingKey)
| ClickPrint
| ClickClear (confirmed : bool)
| DragRelease (boardRef_current : option DOMRect) (i : nat) (info : PanInfo)
| InputText (i : nat) (t : string)
| ClickDelete (i : nat).

Definition with_board (s : App) (b : Board) : App :=
  {| board := b; pasteText := pasteText s;
     selectedColor := selectedColor s; draws := draws s |}.

(** The handler that each event runs.  The [i]-th colour swatch exists for
    the entries of [COLORS] only; the item handlers close over the id of
    the [i]-th rendered item; a label renders no delete button. *)
Definition step (s : App) (e : Event) : App :=
  match e with
  | TypePaste t =>
      {| board := board s; pasteText := t;
         selectedColor := selectedColor s; draws := draws s |}
  | ClickColor i =>
      match nth_error COLORS i with
      | Some _ =>
          {| board := board s; pasteText := pasteText s;
             selectedColor := of_Z (Z.of_nat i); draws := draws s |}
      | None => s
      end
  | ClickAddMagnets => addMagnets uid s
  | ClickAddLabel => addLabel s
  | ClickToggle key => with_board s (toggle key (board s))
  | ClickPrint => with_board s (fst (printBoard (board s)))
  | ClickClear confirmed => with_board s (clearBoard confirmed (board s))
  | DragRelease ref i info => with_board s (drag_gesture ref (board s) (i, info))
  | InputText i t =>
      match nth_error (items (board s)) i with
      | Some it => with_board s (onChangeText (id it) t (board s))
      | None => s
      end
  | ClickDelete i =>
      match nth_error (items (board s)) i with
      | Some it =>
          if ItemType_eqb (type it) label then s
          else with_board s (onDelete (id it) (board s))
      | None => s
      end
  end.

Definition run (s : App) (es : list Event) : App := fold_left step es s.

End RandomHandlers.

(** The state in which the component starts: [useState(DEFAULT_BOARD)],
    [useState("")], [useState(1)]. *)
Definition initial_app : App :=
  {| board := DEFAULT_BOARD; pasteText := ""; selectedColor := 1; draws := 0 |}.

Definition half_random (n : nat) : number := 1 # 2.

(** A colour that is an index into [COLORS]. *)
Definition palette_index (c : number) : Prop :=
  exists i : nat, (i < 8)%nat /\ c = of_Z (Z.of_nat i).

Definition nonneg_item (it : Item) : Prop := 0 <= x it /\ 0 <= y it.

(** The pointer position relative to the board, corrected for the kind of
    item: what the commit rounds and clamps. *)
Definition raw_x (rect : DOMRect) (info : PanInfo) (t : ItemType) : Q :=
  point_x (point info) - left rect - (if ItemType_eqb t label then 0 else 60).

Definition raw_y (rect : DOMRect) (info : PanInfo) : Q :=
  point_y (point info) - top rect - 20.

(** What every session keeps true: the selected colour and the colour of
    every item index the palette, and no item has a negative coordinate. *)
Definition session_inv (s : App) : Prop :=
  palette_index (selectedColor s) /\
  Forall (fun it => palette_index (color it) /\ nonneg_item it)
         (items (board s)).

(** A separator character, as a text. *)
Definition sep_text (c : ascii) : string := String c "".

(** The names read from the pieces that [split_from] cuts. *)
Definition names_from (in_sep : bool) (cur s : chars) : list string :=
  filter Boolean_string
    (map trim (map string_of_list_ascii (split_from in_sep cur s))).

(** ** Auto-save, load and the intro flag *)

(** The elements after the first, in [JSON.stringify (v)]. *)
Definition compact_elems (pr : value -> chars) : list value -> chars :=
  fix more (l : list value) : chars :=
    match l with
    | [] => []
    | v :: l' => ","%char :: pr v ++ more l'
    end.

(** The properties after the first. *)
Definition compact_members (pr : value -> chars)
    : list (string * value) -> chars :=
  fix more (l : list (string * value)) : chars :=
    match l with
    | [] => []
    | kv :: l' =>
        ","%char :: print_string (fst kv) ++ ":"%char :: pr (snd kv) ++ more l'
    end.

(** [JSON.stringify (v)], without indentation. *)
Fixpoint stringify_compact (v : value) : chars :=
  match v with
  | Null => lit "null"
  | JBool true => lit "true"
  | JBool false => lit "false"
  | JNum n => print_number n
  | JStr s => print_string s
  | JArr [] => lit "[]"
  | JArr (v0 :: vs) =>
      "["%char :: stringify_compact v0 ++
      compact_elems stringify_compact vs ++ ["]"%char]
  | JObj [] => lit "{}"
  | JObj (kv :: ms) =>
      "{"%char :: print_string (fst kv) ++ ":"%char ::
      stringify_compact (snd kv) ++
      compact_members stringify_compact ms ++ ["}"%char]
  end.

Definition JSON_stringify_compact (v : value) : string :=
  string_of_list_ascii (stringify_compact v).

(** [localStorage]: the stored pairs, or [None] where the browser forbids
    the store and every access throws. *)
Definition Store : Type := list (string * string).
Definition LocalStorage : Type := option Store.

Fixpoint store_get (k : string) (st : Store) : option string :=
  match st with
  | [] => None
  | (k', v) :: st' => if String.eqb k' k then Some v else store_get k st'
  end.

Fixpoint store_set (k v : string) (st : Store) : Store :=
  match st with
  | [] => [(k, v)]
  | (k', v') :: st' =>
      if String.eqb k' k then (k', v) :: st' else (k', v') :: store_set k v st'
  end.

(** [localStorage.getItem (k)]: [None] when it throws, otherwise the value
    or [null]. *)
Definition getItem (ls : LocalStorage) (k : string) : option (option string) :=
  match ls with
  | None => None
  | Some st => Some (store_get k st)
  end.

(** [localStorage.setItem (k, v)]: [None] when it throws. *)
Definition setItem (ls : LocalStorage) (k v : string) : option LocalStorage :=
  match ls with
  | None => None
  | Some st => Some (Some (store_set k v st))
  end.

Definition board_key : string := "mag-whiteboard-v1".
Definition intro_key : string := "mag-whiteboard-intro-shown".

(** The load effect: [const saved = localStorage.getItem(...);
    if (saved) setBoard(JSON.parse(saved));] inside [try ... catch {}]. *)
Definition loadSaved (ls : LocalStorage) (board : value) : value :=
  match getItem ls board_key with
  | None => board
  | Some None => board
  | Some (Some saved) =>
      if Boolean_string saved then
        match JSON.parse saved with
        | Some json => json
        | None => board
        end
      else board
  end.

(** The auto-save effect:
    [localStorage.setItem(..., JSON.stringify(board))] inside
    [try ... catch {}]. *)
Definition autoSave (ls : LocalStorage) (board : value) : LocalStorage :=
  match setItem ls board_key (JSON_stringify_compact board) with
  | Some ls' => ls'
  | None => ls
  end.

(** The intro effect; the result is the [showIntro] that it sets.
    [has_window] is [typeof window !== "undefined"]. *)
Definition introEffect (has_window : bool) (ls : LocalStorage) : bool :=
  if has_window then
    match getItem ls intro_key with
    | None => false
    | Some r =>
        negb (match r with
              | Some v => String.eqb v "1"
              | None => false
              end)
    end
  else true.

(** [dismissIntro]: the store and [showIntro] afterwards. *)
Definition dismissIntro (has_window : bool) (ls : LocalStorage)
    : LocalStorage * bool :=
  ((if has_window then
      match setItem ls intro_key "1" with
      | Some ls' => ls'
      | None => ls
      end
    else ls),
   false).

(** The effects of mounting the component on a page, in the order in which
    React runs them: the load effect reads the store and asks for the
    saved board; the auto-save effect writes the board of the first
    render, which is [DEFAULT_BOARD]; when the load effect has set a
    board, the next render runs the auto-save effect again with it. *)
Definition mount (ls : LocalStorage) : value * LocalStorage :=
  let first := value_of_Board DEFAULT_BOARD in
  let ls1 := autoSave ls first in
  match getItem ls board_key with
  | Some (Some saved) =>
      if Boolean_string saved then
        match JSON.parse saved with
        | Some json => (json, autoSave ls1 json)
        | None => (first, ls1)
        end
      else (first, ls1)
  | _ => (first, ls1)
  end.

(** Values read back from their compact text, given enough fuel. *)
Definition reads_back_compact (v : value) : Prop :=
  exists n, forall fuel rest,
    (n <= fuel)%nat -> number_end rest = true ->
    parse_value fuel (stringify_compact v ++ rest) = Some (v, rest).
(** ** Properties of the number operations *)

Lemma sub_correct a b : (a - b)%js == a - b.
Proof. apply Qminus'_correct. Qed.

Lemma mul_correct a b : (a * b)%js == a * b.
Proof. apply Qmult'_correct. Qed.

Lemma div_correct a b : (a / b)%js == a / b.
Proof. apply Qred_correct. Qed.

Lemma Math_min_cases a b :
  (a <= b /\ Math_min a b = a) \/ (b < a /\ Math_min a b = b).
Proof.
  unfold Math_min. destruct (Qle_bool a b) eqn:E.
  - left. split; [now apply Qle_bool_iff | reflexivity].
  - right. split; [| reflexivity].
    apply Qnot_le_lt. intro H. apply Qle_bool_iff in H. congruence.
Qed.

Lemma Math_max_cases a b :
  (a <= b /\ Math_max a b = b) \/ (b < a /\ Math_max a b = a).
Proof.
  unfold Math_max. destruct (Qle_bool a b) eqn:E.
  - left. split; [now apply Qle_bool_iff | reflexivity].
  - right. split; [| reflexivity].
    apply Qnot_le_lt. intro H. apply Qle_bool_iff in H. congruence.
Qed.

Lemma snapped_on_grid a : on_grid (Math_round (a / gridSize) * gridSize)%js.
Proof.
  exists (Qfloor ((a / gridSize)%js + (1 # 2))).
  rewrite mul_correct. reflexivity.
Qed.

Lemma zero_on_grid : on_grid 0.
Proof. exists 0%Z. reflexivity. Qed.

(** The clamp [Math.max(0, Math.min(v, hi))]. *)
Lemma clamp_cases v hi :
  let r := Math_max 0 (Math_min v hi) in
  (r = 0 /\ (v < 0 \/ hi < 0)) \/ (r = v /\ 0 <= v <= hi) \/ (r = hi /\ 0 <= hi < v).
Proof.
  intros r. subst r.
  destruct (Math_min_cases v hi) as [[H1 ->] | [H1 ->]];
    [destruct (Math_max_cases 0 v) as [[H2 ->] | [H2 ->]]
    | destruct (Math_max_cases 0 hi) as [[H2 ->] | [H2 ->]]]; auto.
Qed.

(** ** What [onDragEnd] does to each position of the item list *)

Lemma onDragEnd_nth rect dragged info b i :
  nth_error (items (onDragEnd (Some rect) dragged info b)) i =
  option_map
    (drag_item rect (point_x (point info) - left rect)%js
                    (point_y (point info) - top rect)%js b dragged)
    (nth_error (items b) i).
Proof. simpl. apply nth_error_map. Qed.

Lemma drag_item_other rect x0 y0 b dragged it :
  id it <> dragged -> drag_item rect x0 y0 b dragged it = it.
Proof.
  intros H. unfold drag_item.
  destruct (String.eqb_spec (id it) dragged); [contradiction | reflexivity].
Qed.

Lemma drag_item_fields rect x0 y0 b dragged it :
  let it' := drag_item rect x0 y0 b dragged it in
  id it' = id it /\ type it' = type it /\ text it' = text it /\
  color it' = color it.
Proof.
  unfold drag_item. destruct (String.eqb (id it) dragged); simpl; auto.
Qed.

(** The committed coordinates of the dragged item, as the source computes
    them. *)
Lemma drag_item_dragged rect x0 y0 b it :
  let it' := drag_item rect x0 y0 b (id it) it in
  let off := if ItemType_eqb (type it) label then 0 else 60 in
  let sx := if snap (settings b)
            then (Math_round ((x0 - off) / gridSize) * gridSize)%js
            else (x0 - off)%js in
  let sy := if snap (settings b)
            then (Math_round ((y0 - 20) / gridSize) * gridSize)%js
            else (y0 - 20)%js in
  x it' = Math_max 0 (Math_min sx (width rect - 120)%js) /\
  y it' = Math_max 0 (Math_min sy (height rect - 40)%js).
Proof.
  unfold drag_item. rewrite String.eqb_refl. simpl. split; reflexivity.
Qed.

(** ** Drag commits: snapping, clamping, degenerate rectangles, frame *)

Section DragCommit.

Variables (rect : DOMRect) (dragged : string) (info : PanInfo) (b : Board).

Let b' := onDragEnd (Some rect) dragged info b.

(** Every item of the new board comes from the item at the same index of
    the old one, and the dragged ones carry the clamped coordinates. *)
Lemma committed_item i it' :
  nth_error (items b') i = Some it' -> id it' = dragged ->
  exists sx sy,
    x it' = Math_max 0 (Math_min sx (width rect - 120)%js) /\
    y it' = Math_max 0 (Math_min sy (height rect - 40)%js) /\
    (snap (settings b) = true -> on_grid sx /\ on_grid sy).
Proof.
  unfold b'. rewrite onDragEnd_nth.
  destruct (nth_error (items b) i) as [it |]; [| discriminate].
  simpl. intros [= <-] Hid.
  set (x0 := (point_x (point info) - left rect)%js) in *.
  set (y0 := (point_y (point info) - top rect)%js) in *.
  destruct (drag_item_fields rect x0 y0 b dragged it) as (Hi & _).
  rewrite Hi in Hid. subst dragged.
  destruct (drag_item_dragged rect x0 y0 b it) as (Hx & Hy).
  eexists. eexists. split; [exact Hx |]. split; [exact Hy |].
  intros ->. split; apply snapped_on_grid.
Qed.

End DragCommit.

(** C1 (as stated, refuted).  With snapping on, a release far to the right
    of a board 1000 wide commits [x = 880 = 1000 - 120], which is not a
    multiple of 24. *)
Lemma C1_snap_counterexample :
  let b' := onDragEnd (Some demo_rect) "a" demo_info demo_board in
  snap (settings demo_board) = true /\
  exists it', nth_error (items b') 0 = Some it' /\ id it' = "a"%string /\
              x it' = 880 /\ ~ on_grid (x it').
Proof.
  split; [reflexivity |].
  eexists. split; [reflexivity |]. split; [reflexivity |].
  split; [reflexivity |].
  intros [k Hk]. unfold Qeq in Hk. simpl in Hk. lia.
Qed.

(** C1 (amended).  With [settings.snap] true, each committed coordinate of
    the dragged item is an integer multiple of 24 or is the upper clamp
    bound ([rect.width - 120] for [x], [rect.height - 40] for [y]): the
    snapped value is clamped after rounding. *)
Theorem C1_snap_then_clamp rect dragged info b i it' :
  snap (settings b) = true ->
  nth_error (items (onDragEnd (Some rect) dragged info b)) i = Some it' ->
  id it' = dragged ->
  (on_grid (x it') \/ x it' == width rect - 120) /\
  (on_grid (y it') \/ y it' == height rect - 40).
Proof.
  intros Hs Hn Hid.
  destruct (committed_item rect dragged info b i it' Hn Hid) as (sx & sy & -> & -> & Hg).
  destruct (Hg Hs) as [Gx Gy].
  split.
  - destruct (clamp_cases sx (width rect - 120)%js)
      as [[-> _] | [[-> _] | [-> _]]].
    + left. apply zero_on_grid.
    + left. exact Gx.
    + right. apply sub_correct.
  - destruct (clamp_cases sy (height rect - 40)%js)
      as [[-> _] | [[-> _] | [-> _]]].
    + left. apply zero_on_grid.
    + left. exact Gy.
    + right. apply sub_correct.
Qed.

Lemma C1_snap_then_clamp_witness :
  (on_grid (x demo_dropped) \/ x demo_dropped == width demo_rect - 120) /\
  (on_grid (y demo_dropped) \/ y demo_dropped == height demo_rect - 40).
Proof.
  apply (C1_snap_then_clamp demo_rect "a" demo_info demo_board 0 demo_dropped);
    reflexivity.
Defined.

(** C2 (as stated, refuted).  On a board 100 wide the dragged item is
    committed at [x = 0], above the bound [100 - 120 = -20]. *)
Lemma C2_clamp_counterexample :
  let rect := mkRect 0 0 100 600 in
  let b' := onDragEnd (Some rect) "a" (mkInfo (mkPoint 50 300)) demo_board in
  exists it', nth_error (items b') 0 = Some it' /\ id it' = "a"%string /\
              ~ (0 <= x it' <= width rect - 120).
Proof.
  eexists. split; [reflexivity |]. split; [reflexivity |].
  vm_compute. intros [_ H]. apply H. reflexivity.
Qed.

(** C2 (amended).  The committed position of the dragged item is never
    negative; [x <= rect.width - 120] holds whenever [rect.width >= 120]
    and [y <= rect.height - 40] whenever [rect.height >= 40], however far
    outside the board the pointer is.  On a narrower (lower) board the
    coordinate is 0. *)
Theorem C2_clamp rect dragged info b i it' :
  nth_error (items (onDragEnd (Some rect) dragged info b)) i = Some it' ->
  id it' = dragged ->
  (0 <= x it' /\ (120 <= width rect -> x it' <= width rect - 120) /\
   (width rect < 120 -> x it' = 0)) /\
  (0 <= y it' /\ (40 <= height rect -> y it' <= height rect - 40) /\
   (height rect < 40 -> y it' = 0)).
Proof.
  intros Hn Hid.
  destruct (committed_item rect dragged info b i it' Hn Hid) as (sx & sy & -> & -> & _).
  pose proof (sub_correct (width rect) 120) as Ew.
  pose proof (sub_correct (height rect) 40) as Eh.
  split.
  - destruct (clamp_cases sx (width rect - 120)%js)
      as [[-> H] | [[-> H] | [-> H]]];
      (split; [| split]); intros; try reflexivity; try lra;
      try (exfalso; lra).
  - destruct (clamp_cases sy (height rect - 40)%js)
      as [[-> H] | [[-> H] | [-> H]]];
      (split; [| split]); intros; try reflexivity; try lra;
      try (exfalso; lra).
Qed.

Lemma C2_clamp_witness :
  (0 <= x demo_dropped /\
   (120 <= width demo_rect -> x demo_dropped <= width demo_rect - 120) /\
   (width demo_rect < 120 -> x demo_dropped = 0)) /\
  (0 <= y demo_dropped /\
   (40 <= height demo_rect -> y demo_dropped <= height demo_rect - 40) /\
   (height demo_rect < 40 -> y demo_dropped = 0)).
Proof.
  apply (C2_clamp demo_rect "a" demo_info demo_board 0 demo_dropped);
    reflexivity.
Defined.

(** C7 (as stated, refuted).  With a board rectangle of zero width and
    height the drag still commits: the item at (100, 100) moves to (0, 0). *)
Lemma C7_degenerate_rect_counterexample :
  let rect := mkRect 0 0 0 0 in
  (width rect <= 0 /\ height rect <= 0) /\
  onDragEnd (Some rect) "a" demo_info demo_board <> demo_board.
Proof.
  split; [split; discriminate |].
  vm_compute. discriminate.
Qed.

(** C7 (amended).  A drag commit on a board rectangle of zero or negative
    width commits [x = 0] for the dragged item, and one of zero or negative
    height commits [y = 0]: the commit is carried out rather than deferred,
    and no negative coordinate is committed. *)
Theorem C7_degenerate_rect rect dragged info b i it' :
  nth_error (items (onDragEnd (Some rect) dragged info b)) i = Some it' ->
  id it' = dragged ->
  (width rect <= 0 -> x it' = 0) /\ (height rect <= 0 -> y it' = 0).
Proof.
  intros Hn Hid.
  destruct (committed_item rect dragged info b i it' Hn Hid)
    as (sx & sy & -> & -> & _).
  pose proof (sub_correct (width rect) 120) as Ew.
  pose proof (sub_correct (height rect) 40) as Eh.
  split; intros H.
  - destruct (clamp_cases sx (width rect - 120)%js)
      as [[-> _] | [[_ H'] | [_ H']]]; [reflexivity | exfalso; lra ..].
  - destruct (clamp_cases sy (height rect - 40)%js)
      as [[-> _] | [[_ H'] | [_ H']]]; [reflexivity | exfalso; lra ..].
Qed.

Lemma C7_degenerate_rect_witness :
  let it' := {| id := "a"; type := magnet; text := "Alice";
                x := 0; y := 0; color := 1 |} in
  (width (mkRect 0 0 0 0) <= 0 -> x it' = 0) /\
  (height (mkRect 0 0 0 0) <= 0 -> y it' = 0).
Proof.
  apply (C7_degenerate_rect (mkRect 0 0 0 0) "a" demo_info demo_board 0);
    reflexivity.
Defined.

(** C10.  A drag commit leaves the settings and every item with another id
    as they are, and keeps the dragged item's [id], [type], [text] and
    [color]; only its [x] and [y] may change. *)
Theorem C10_onDragEnd_frame boardRef_current dragged info b :
  let b' := onDragEnd boardRef_current dragged info b in
  settings b' = settings b /\
  List.length (items b') = List.length (items b) /\
  forall i it, nth_error (items b) i = Some it ->
    exists it', nth_error (items b') i = Some it' /\
      id it' = id it /\ type it' = type it /\ text it' = text it /\
      color it' = color it /\
      (id it <> dragged -> it' = it).
Proof.
  destruct boardRef_current as [rect |]; simpl.
  - split; [reflexivity |]. split; [apply length_map |].
    intros i it Hi. eexists. split.
    + rewrite nth_error_map, Hi. reflexivity.
    + pose proof (drag_item_fields rect
        (point_x (point info) - left rect)%js
        (point_y (point info) - top rect)%js b dragged it) as (H1 & H2 & H3 & H4).
      repeat (split; [assumption |]).
      apply drag_item_other.
  - split; [reflexivity |]. split; [reflexivity |].
    intros i it Hi. exists it. repeat (split; [reflexivity || assumption |]).
    reflexivity.
Qed.

Lemma C10_onDragEnd_frame_witness :
  exists it', nth_error (items (onDragEnd (Some demo_rect) "a" demo_info demo_board)) 0
              = Some it' /\
    id it' = id demo_item /\ type it' = type demo_item /\
    text it' = text demo_item /\ color it' = color demo_item /\
    (id demo_item <> "a"%string -> it' = demo_item).
Proof.
  destruct (C10_onDragEnd_frame (Some demo_rect) "a" demo_info demo_board)
    as (_ & _ & H).
  exact (H 0%nat demo_item eq_refl).
Defined.

(** ** The lock and the palette *)

Lemma drag_gesture_locked boardRef_current b g :
  locked (settings b) = true -> drag_gesture boardRef_current b g = b.
Proof.
  intros Hl. unfold drag_gesture, render_items.
  rewrite nth_error_map.
  destruct (nth_error (items b) (fst g)) as [it |]; simpl; [| reflexivity].
  unfold pan_release. simpl. rewrite Hl. reflexivity.
Qed.

(** The handler itself has no lock test: called directly on a locked board
    it moves the item.  The lock lives in the [drag] prop alone. *)
Example onDragEnd_ignores_lock :
  onDragEnd (Some demo_rect) "a" demo_info locked_board <> locked_board.
Proof. vm_compute. discriminate. Qed.

(** C6.  While [settings.locked] is true every rendered item has
    [drag = false], so no sequence of drag gestures reaches [onDragEnd]:
    the board, and with it every item position, stays as it is. *)
Theorem C6_locked_no_placement boardRef_current b gestures :
  locked (settings b) = true ->
  Forall (fun el => drag el = false) (render_items boardRef_current b) /\
  fold_left (drag_gesture boardRef_current) gestures b = b.
Proof.
  intros Hl. split.
  - unfold render_items. apply Forall_map, Forall_forall.
    intros it _. simpl. rewrite Hl. reflexivity.
  - induction gestures as [| g gs IH]; simpl; [reflexivity |].
    rewrite drag_gesture_locked by assumption. exact IH.
Qed.

Lemma C6_locked_no_placement_witness :
  Forall (fun el => drag el = false) (render_items (Some demo_rect) locked_board) /\
  fold_left (drag_gesture (Some demo_rect))
            [(0%nat, demo_info); (0%nat, mkInfo (mkPoint 5 5))] locked_board
  = locked_board.
Proof.
  apply (C6_locked_no_placement (Some demo_rect) locked_board
           [(0%nat, demo_info); (0%nat, mkInfo (mkPoint 5 5))]).
  reflexivity.
Defined.

Lemma is_integer_of_Z i : is_integer (of_Z i) = true.
Proof.
  unfold is_integer, of_Z.
  rewrite Qcanon.Qred_identity by (simpl; apply Z.gcd_1_r). reflexivity.
Qed.

Lemma Qle_bool_0_of_Z i : Qle_bool 0 (of_Z i) = (0 <=? i)%Z.
Proof.
  unfold Qle_bool, of_Z. simpl. rewrite Z.mul_1_r. reflexivity.
Qed.

Lemma array_get_of_Z {A : Type} (arr : list A) (i : Z) :
  array_get arr (of_Z i) =
  if (0 <=? i)%Z then nth_error arr (Z.to_nat i) else None.
Proof.
  unfold array_get.
  rewrite is_integer_of_Z, Qle_bool_0_of_Z. unfold of_Z.
  rewrite Qfloor_Z. reflexivity.
Qed.

(** C9.  The palette lookup [COLORS[colorIdx] ?? COLORS[0]] is total on the
    integers: an index in [0, 7] selects that entry and every other integer
    selects entry 0. *)
Theorem C9_palette_lookup (item : Item) (locked : bool)
    (handler : string -> PanInfo -> Board -> Board) (i : Z) :
  let c := div_color (Magnet item locked (of_Z i) handler) in
  (exists col, c = Some col) /\
  ((0 <= i <= 7)%Z -> c = nth_error COLORS (Z.to_nat i)) /\
  (~ (0 <= i <= 7)%Z -> c = nth_error COLORS 0).
Proof.
  simpl. rewrite array_get_of_Z.
  change (array_get COLORS 0) with (nth_error COLORS 0).
  destruct (Z.leb_spec 0 i) as [H | H].
  - destruct (Z_le_gt_dec i 7) as [H7 | H7].
    + assert (Hn : (Z.to_nat i < 8)%nat) by lia.
      destruct (nth_error COLORS (Z.to_nat i)) as [col |] eqn:E.
      * simpl. split; [now exists col |]. split; [reflexivity | lia].
      * apply nth_error_None in E. simpl in E. lia.
    + assert (E : nth_error COLORS (Z.to_nat i) = None).
      { apply nth_error_None. simpl. lia. }
      rewrite E. simpl. split; [eexists; reflexivity |].
      split; [lia | reflexivity].
  - simpl. split; [eexists; reflexivity |]. split; [lia | reflexivity].
Qed.

Lemma C9_palette_lookup_witness :
  let c := div_color (Magnet demo_item false (of_Z 5) (onDragEnd None)) in
  (exists col, c = Some col) /\
  ((0 <= 5 <= 7)%Z -> c = nth_error COLORS (Z.to_nat 5)) /\
  (~ (0 <= 5 <= 7)%Z -> c = nth_error COLORS 0).
Proof. exact (C9_palette_lookup demo_item false (onDragEnd None) 5). Defined.

Example palette_out_of_range :
  div_color (Magnet demo_item false 8 (onDragEnd None)) = nth_error COLORS 0 /\
  div_color (Magnet demo_item false (-1) (onDragEnd None)) = nth_error COLORS 0 /\
  div_color (Magnet demo_item false (3 # 2) (onDragEnd None)) = nth_error COLORS 0.
Proof. repeat split. Qed.

(** ** Pasted names: parsing and layout *)

Lemma of_Z_reduced p z : p == inject_Z z -> Qred p = of_Z z.
Proof.
  intros H. rewrite (Qred_complete _ _ H).
  apply Qcanon.Qred_identity. simpl. apply Z.gcd_1_r.
Qed.

Lemma add_of_Z a b : (of_Z a + of_Z b)%js = of_Z (a + b).
Proof.
  unfold add, Qplus'. apply of_Z_reduced. unfold of_Z.
  rewrite inject_Z_plus. reflexivity.
Qed.

Lemma mul_of_Z a b : (of_Z a * of_Z b)%js = of_Z (a * b).
Proof.
  unfold mul, Qmult'. apply of_Z_reduced. unfold of_Z.
  rewrite inject_Z_mult. reflexivity.
Qed.

Lemma index_div_floor_of_Z i b :
  (0 < b)%Z -> index_div_floor i b = of_Z (Z.of_nat i / b).
Proof.
  intros Hb. unfold index_div_floor, Math_floor, div. f_equal.
  rewrite (Qfloor_comp _ _ (Qred_correct _)).
  unfold of_Z. symmetry. apply Zdiv_Qdiv.
Qed.

Lemma index_rem_of_Z i b :
  (0 < b)%Z -> index_rem i b = of_Z (Z.of_nat i mod b).
Proof.
  intros Hb. unfold index_rem. f_equal. apply Z.rem_mod_nonneg; lia.
Qed.

Lemma mapi_from_nth {A B : Type} (f : A -> nat -> B) l : forall k i,
  nth_error (mapi_from f k l) i =
  option_map (fun v => f v (k + i)%nat) (nth_error l i).
Proof.
  induction l as [| v l IH]; intros k i.
  - destruct i; reflexivity.
  - destruct i as [| i]; simpl.
    + rewrite Nat.add_0_r. reflexivity.
    + rewrite IH. rewrite Nat.add_succ_r. reflexivity.
Qed.

Lemma mapi_from_length {A B : Type} (f : A -> nat -> B) l : forall k,
  List.length (mapi_from f k l) = List.length l.
Proof. induction l; intros k; simpl; auto. Qed.

(** The grid-fill layout of [addMagnets]. *)
Lemma new_magnets_nth uid first color0 names i n :
  nth_error names i = Some n ->
  nth_error (new_magnets uid first color0 names) i =
  Some {| id := uid (first + i)%nat; type := magnet; text := n;
          x := of_Z (24 + (Z.of_nat i mod 4) * 140);
          y := of_Z (24 + (Z.of_nat i / 4) * 60);
          color := color0 |}.
Proof.
  intros H. unfold new_magnets, mapi.
  rewrite mapi_from_nth, H. simpl.
  rewrite index_rem_of_Z, index_div_floor_of_Z by lia.
  unfold baseX, baseY.
  change 24 with (of_Z 24). change 140 with (of_Z 140).
  change 60 with (of_Z 60).
  rewrite !mul_of_Z, !add_of_Z. reflexivity.
Qed.

(** *** Blank input *)

Lemma trimStart_blank s :
  Forall (fun c => is_space c = true) s -> trimStart s = [].
Proof.
  induction 1 as [| c s Hc _ IH]; simpl; [reflexivity |].
  rewrite Hc. exact IH.
Qed.

Lemma trim_chars_blank s :
  Forall (fun c => is_space c = true) s -> trim_chars s = [].
Proof.
  intros H. unfold trim_chars. rewrite (trimStart_blank s H). reflexivity.
Qed.

Lemma trim_blank s : blank s -> trim s = ""%string.
Proof.
  intros H. unfold trim. rewrite (trim_chars_blank _ H). reflexivity.
Qed.

(** Every piece cut by [split_from] is made of characters of the text (or
    of the piece already under way). *)
Lemma split_from_Forall (P : ascii -> Prop) s : forall in_sep cur,
  Forall P cur -> Forall P s ->
  Forall (Forall P) (split_from in_sep cur s).
Proof.
  induction s as [| c s IH]; intros in_sep cur Hcur Hs; simpl.
  - constructor; [| constructor]. now apply Forall_rev.
  - inversion Hs as [| ? ? Hc Hs']; subst.
    destruct (is_sep c).
    + destruct in_sep.
      * apply IH; assumption.
      * constructor; [now apply Forall_rev |]. apply IH; [constructor | assumption].
    + apply IH; [constructor |]; assumption.
Qed.

Lemma parseNames_blank s : blank s -> parseNames s = [].
Proof.
  intros H. unfold parseNames, split_seps.
  pose proof (@split_from_Forall (fun c => is_space c = true)
                (list_ascii_of_string s) false [] (Forall_nil _) H) as HF.
  induction HF as [| p ps Hp _ IH]; simpl; [reflexivity |].
  unfold trim at 1. rewrite list_ascii_of_string_of_list_ascii.
  rewrite (trim_chars_blank _ Hp). simpl. exact IH.
Qed.

Lemma trimStart_nil s :
  trimStart s = [] -> Forall (fun c => is_space c = true) s.
Proof.
  induction s as [| c s IH]; simpl; [constructor |].
  destruct (is_space c) eqn:E; [| discriminate].
  intros H. constructor; auto.
Qed.

Lemma trimStart_spaces s :
  Forall (fun c => is_space c = true) (trimStart s) ->
  Forall (fun c => is_space c = true) s.
Proof.
  induction s as [| c s IH]; simpl; [constructor |].
  destruct (is_space c) eqn:E; [| trivial].
  intros H. constructor; auto.
Qed.

Lemma trim_empty_blank s : trim s = ""%string -> blank s.
Proof.
  unfold trim, trim_chars, trimEnd, blank. intros H.
  apply (f_equal list_ascii_of_string) in H.
  rewrite list_ascii_of_string_of_list_ascii in H. simpl in H.
  apply (f_equal (@rev ascii)) in H. rewrite rev_involutive in H. simpl in H.
  apply trimStart_nil in H. apply Forall_rev in H.
  rewrite rev_involutive in H. now apply trimStart_spaces.
Qed.

(** A text from which [parseNames] reads a name passes the guard of
    [addMagnets]. *)
Lemma parseNames_guard s i n :
  nth_error (parseNames s) i = Some n -> Boolean_string (trim s) = true.
Proof.
  intros H. unfold Boolean_string.
  destruct (String.eqb_spec (trim s) "") as [E | E]; [| reflexivity].
  apply trim_empty_blank, parseNames_blank in E. rewrite E in H.
  destruct i; discriminate.
Qed.

(** *** What a parsed name looks like *)

Lemma trimStart_no_lead s : no_lead (trimStart s).
Proof.
  induction s as [| c s IH]; simpl; [exact I |].
  destruct (is_space c) eqn:E; [exact IH | exact E].
Qed.

Lemma trimStart_id s : no_lead s -> trimStart s = s.
Proof. destruct s as [| c s]; simpl; [reflexivity |]. now intros ->. Qed.

(** Trimming the front leaves the last character where it is. *)
Lemma trimStart_keeps_end w : no_lead (rev w) -> no_lead (rev (trimStart w)).
Proof.
  induction w as [| c w IH]; simpl; [trivial |].
  destruct (is_space c) eqn:E; [| trivial].
  intros H. destruct w as [| d w]; [exact I |].
  apply IH. simpl in *.
  destruct (rev w ++ [d]) as [| e r] eqn:Er; [| exact H].
  destruct (rev w); discriminate.
Qed.

Lemma trim_chars_idem s : trim_chars (trim_chars s) = trim_chars s.
Proof.
  unfold trim_chars, trimEnd.
  set (t := trimStart s).
  assert (Ht : no_lead (rev (rev t)))
    by (rewrite rev_involutive; apply trimStart_no_lead).
  apply trimStart_keeps_end in Ht.
  rewrite (trimStart_id _ Ht).
  rewrite rev_involutive, (trimStart_id _ (trimStart_no_lead (rev t))).
  reflexivity.
Qed.

Lemma trim_idem s : trim (trim s) = trim s.
Proof.
  unfold trim. rewrite list_ascii_of_string_of_list_ascii, trim_chars_idem.
  reflexivity.
Qed.

Lemma trimStart_Forall (P : ascii -> Prop) s :
  Forall P s -> Forall P (trimStart s).
Proof.
  induction 1 as [| c s Hc Hs IH]; simpl; [constructor |].
  destruct (is_space c); [exact IH | now constructor].
Qed.

Lemma trim_chars_Forall (P : ascii -> Prop) s :
  Forall P s -> Forall P (trim_chars s).
Proof.
  intros H. unfold trim_chars, trimEnd.
  apply Forall_rev, trimStart_Forall, Forall_rev, trimStart_Forall, H.
Qed.

(** No piece cut by [split_from] holds a separator. *)
Lemma split_from_no_sep s : forall in_sep cur,
  Forall (fun c => is_sep c = false) cur ->
  Forall (Forall (fun c => is_sep c = false)) (split_from in_sep cur s).
Proof.
  induction s as [| c s IH]; intros in_sep cur Hcur; simpl.
  - constructor; [now apply Forall_rev | constructor].
  - destruct (is_sep c) eqn:E.
    + destruct in_sep; [now apply IH |].
      constructor; [now apply Forall_rev | apply IH; constructor].
    + apply IH. now constructor.
Qed.

Lemma parseNames_clean text n : In n (parseNames text) -> clean_name n.
Proof.
  unfold parseNames. intros H. apply filter_In in H as [H Hne].
  apply in_map_iff in H as (p & <- & Hp).
  unfold split_seps in Hp. apply in_map_iff in Hp as (q & <- & Hq).
  split; [| split].
  - intros E. unfold Boolean_string in Hne. rewrite E in Hne. discriminate.
  - apply trim_idem.
  - unfold trim. rewrite !list_ascii_of_string_of_list_ascii.
    apply trim_chars_Forall.
    pose proof (split_from_no_sep (list_ascii_of_string text) false []
                  (Forall_nil _)) as HF.
    rewrite Forall_forall in HF. now apply HF.
Qed.

(** C5.  [parseNames] turns the roster text into Alice, Bob, Carol, Dave;
    [addMagnets] appends one magnet per name, and the magnet of the
    [i]-th name of any pasted text sits at
    [x = 24 + (i mod 4) * 140], [y = 24 + floor(i / 4) * 60]: here
    (24,24), (164,24), (304,24), (444,24).  Every parsed name is non-empty,
    trimmed and free of newlines, commas and semicolons. *)
Theorem C5_parse_and_layout (uid : nat -> string) :
  parseNames roster = ["Alice"; "Bob"; "Carol"; "Dave"]%string /\
  map (fun it => (type it, text it, x it, y it))
      (items (board (addMagnets uid roster_app)))
  = [(magnet, "Alice"%string, 24, 24); (magnet, "Bob"%string, 164, 24);
     (magnet, "Carol"%string, 304, 24); (magnet, "Dave"%string, 444, 24)] /\
  (forall text n, In n (parseNames text) -> clean_name n) /\
  forall (s : App) (i : nat) (n : string),
    nth_error (parseNames (pasteText s)) i = Some n ->
    nth_error (items (board (addMagnets uid s))) (List.length (items (board s)) + i)
    = Some {| id := uid (draws s + i)%nat; type := magnet; text := n;
              x := of_Z (24 + (Z.of_nat i mod 4) * 140);
              y := of_Z (24 + (Z.of_nat i / 4) * 60);
              color := selectedColor s |}.
Proof.
  split; [reflexivity |]. split; [reflexivity |].
  split; [exact parseNames_clean |].
  intros s i n Hn. unfold addMagnets.
  rewrite (parseNames_guard _ _ _ Hn). simpl.
  rewrite nth_error_app2 by lia.
  replace (List.length (items (board s)) + i - List.length (items (board s)))%nat
    with i by lia.
  apply new_magnets_nth. exact Hn.
Qed.

Lemma C5_parse_and_layout_witness :
  nth_error (items (board (addMagnets demo_uid roster_app))) (0 + 2)
  = Some {| id := demo_uid (0 + 2); type := magnet; text := "Carol";
            x := of_Z (24 + (Z.of_nat 2 mod 4) * 140);
            y := of_Z (24 + (Z.of_nat 2 / 4) * 60);
            color := 1 |}.
Proof.
  destruct (C5_parse_and_layout demo_uid) as (_ & _ & _ & H).
  exact (H roster_app 2%nat "Carol"%string eq_refl).
Defined.

(** C8.  On an empty or whitespace-only text [parseNames] yields no name
    and [addMagnets] returns without touching the state: the board keeps
    its items, and nothing is raised. *)
Theorem C8_blank_paste (uid : nat -> string) (s : App) :
  blank (pasteText s) ->
  parseNames (pasteText s) = [] /\
  addMagnets uid s = s /\
  List.length (items (board (addMagnets uid s))) = List.length (items (board s)).
Proof.
  intros H. split; [now apply parseNames_blank |].
  assert (E : addMagnets uid s = s).
  { unfold addMagnets. rewrite (trim_blank _ H). reflexivity. }
  split; [exact E | now rewrite E].
Qed.

Lemma C8_blank_paste_witness :
  parseNames (pasteText blank_app) = [] /\
  addMagnets demo_uid blank_app = blank_app /\
  List.length (items (board (addMagnets demo_uid blank_app)))
  = List.length (items (board blank_app)).
Proof.
  apply (C8_blank_paste demo_uid blank_app).
  repeat constructor.
Defined.

(** ** JSON numbers: reading back what was printed *)

Lemma N_of_digit_char d : (d < 10)%N -> N_of_ascii (digit_char d) = (48 + d)%N.
Proof. intros H. unfold digit_char. apply N_ascii_embedding. lia. Qed.

Lemma is_digit_digit_char d : (d < 10)%N -> is_digit (digit_char d) = true.
Proof.
  intros H. unfold is_digit. rewrite N_of_digit_char by assumption.
  apply andb_true_intro. split; apply N.leb_le; lia.
Qed.

Lemma digit_val_digit_char d : (d < 10)%N -> digit_val (digit_char d) = d.
Proof.
  intros H. unfold digit_val. rewrite N_of_digit_char by assumption. lia.
Qed.

Lemma read_digits_stop acc k s :
  starts_with_digit s = false -> read_digits acc k s = (acc, k, s).
Proof.
  destruct s as [| c r]; simpl; [reflexivity |]. intros ->. reflexivity.
Qed.

Lemma pow10_succ k : (10 ^ N.of_nat (S k) = 10 * 10 ^ N.of_nat k)%N.
Proof. rewrite Nat2N.inj_succ. apply N.pow_succ_r'. Qed.

Lemma pow10_pos k : (0 < 10 ^ N.of_nat k)%N.
Proof. apply N.neq_0_lt_0, N.pow_nonzero. discriminate. Qed.

(** Reading the [k] digits written by [fixed_digits]. *)
Lemma read_fixed_digits k : forall n acc j rest,
  read_digits acc j (fixed_digits k n ++ rest) =
  read_digits (acc * 10 ^ N.of_nat k + n mod 10 ^ N.of_nat k)%N (j + k)%nat rest.
Proof.
  induction k as [| k IH]; intros n acc j rest.
  - simpl fixed_digits. simpl app. rewrite N.mod_1_r.
    f_equal; [simpl; lia | lia].
  - simpl fixed_digits. rewrite <- app_assoc. simpl app.
    assert (Hd : (n mod 10 < 10)%N) by (apply N.mod_lt; lia).
    rewrite IH. cbn [read_digits].
    rewrite is_digit_digit_char, digit_val_digit_char by assumption.
    f_equal; [| lia].
    rewrite pow10_succ, (N.Div0.mod_mul_r n 10). lia.
Qed.

Lemma read_fixed_digits_stop k n rest :
  starts_with_digit rest = false ->
  read_digits 0 0 (fixed_digits k n ++ rest) = ((n mod 10 ^ N.of_nat k)%N, k, rest).
Proof.
  intros H. rewrite read_fixed_digits, read_digits_stop by assumption.
  reflexivity.
Qed.

(** [fixed_digits] from the left: the leading digit comes first. *)
Lemma fixed_digits_head k : forall n,
  fixed_digits (S k) n =
  digit_char ((n / 10 ^ N.of_nat k) mod 10) :: fixed_digits k n.
Proof.
  induction k as [| k IH]; intros n.
  - simpl. rewrite N.div_1_r. reflexivity.
  - change (fixed_digits (S (S k)) n)
      with (fixed_digits (S k) (n / 10) ++ [digit_char (n mod 10)]).
    rewrite IH. simpl. rewrite N.Div0.div_div, <- pow10_succ. reflexivity.
Qed.

(** [count_digits] is the number of decimal digits. *)
Lemma count_digits_spec fuel : forall n,
  (n < 2 ^ N.of_nat fuel)%N ->
  exists k, count_digits fuel n = S k /\
    (n < 10 ^ N.of_nat (S k))%N /\
    (n <> 0%N -> (10 ^ N.of_nat k <= n)%N) /\
    (n = 0%N -> k = 0%nat).
Proof.
  induction fuel as [| fuel IH]; intros n Hn.
  - simpl in *. exists 0%nat. repeat split; simpl; lia.
  - simpl count_digits. destruct (N.ltb_spec n 10) as [H | H].
    + exists 0%nat. repeat split; simpl; lia.
    + assert (Hq : (n / 10 < 2 ^ N.of_nat fuel)%N).
      { rewrite Nat2N.inj_succ, N.pow_succ_r' in Hn.
        apply N.Div0.div_lt_upper_bound. lia. }
      destruct (IH _ Hq) as (k & -> & Hlt & Hge & _).
      exists (S k). split; [reflexivity |].
      assert (Hnz : (n / 10 <> 0)%N)
        by (intros E; apply N.div_small_iff in E; lia).
      specialize (Hge Hnz).
      pose proof (N.Div0.div_mod n 10) as Hdm.
      pose proof (N.mod_lt n 10 ltac:(lia)) as Hm.
      rewrite (pow10_succ (S k)), (pow10_succ k).
      rewrite (pow10_succ k) in Hlt.
      generalize dependent (10 ^ N.of_nat k)%N.
      generalize dependent (n mod 10)%N. generalize dependent (n / 10)%N.
      intros. repeat split; lia.
Qed.

Lemma lt_pow2_log2 n : (n < 2 ^ N.of_nat (S (N.to_nat (N.log2 n))))%N.
Proof.
  rewrite Nat2N.inj_succ, N2Nat.id.
  destruct (N.eq_dec n 0) as [-> | H]; [reflexivity |].
  apply N.log2_spec. lia.
Qed.

Lemma print_N_spec n :
  exists k, print_N n = fixed_digits (S k) n /\
            (n < 10 ^ N.of_nat (S k))%N /\
            (n <> 0%N -> (10 ^ N.of_nat k <= n)%N) /\
            (n = 0%N -> k = 0%nat).
Proof.
  unfold print_N.
  destruct (count_digits_spec _ n (lt_pow2_log2 n)) as (k & -> & H).
  exists k. split; [reflexivity | exact H].
Qed.

Lemma eqb_digit_char_0 d :
  (d < 10)%N -> Ascii.eqb (digit_char d) "0" = (d =? 0)%N.
Proof.
  intros H. destruct (N.eqb_spec d 0) as [-> | Hd]; [reflexivity |].
  apply Ascii.eqb_neq. intros E.
  apply (f_equal N_of_ascii) in E. rewrite N_of_digit_char in E by assumption.
  change (N_of_ascii "0") with 48%N in E. lia.
Qed.

(** The integer part is read back, provided no digit follows it. *)
Lemma parse_int_print_N n rest :
  starts_with_digit rest = false ->
  parse_int (print_N n ++ rest) = Some (n, rest).
Proof.
  intros Hrest.
  destruct (print_N_spec n) as (k & -> & Hlt & Hge & Hz).
  pose proof (read_fixed_digits_stop (S k) n rest Hrest) as Hread.
  rewrite (N.mod_small _ _ Hlt) in Hread.
  rewrite fixed_digits_head in *. simpl app in *.
  set (d := ((n / 10 ^ N.of_nat k) mod 10)%N) in *.
  assert (Hd : (d < 10)%N) by (apply N.mod_lt; lia).
  unfold parse_int.
  rewrite eqb_digit_char_0 by assumption.
  destruct (N.eqb_spec d 0) as [E | E].
  - (* a leading zero: the number is zero and has one digit *)
    assert (n = 0%N) as ->.
    { destruct (N.eq_dec n 0) as [| Hn]; [assumption | exfalso].
      specialize (Hge Hn). pose proof (pow10_pos k).
      assert (Hq : (n / 10 ^ N.of_nat k < 10)%N).
      { apply N.Div0.div_lt_upper_bound. rewrite pow10_succ in Hlt. lia. }
      subst d. rewrite N.mod_small in E by assumption.
      apply N.div_small_iff in E; lia. }
    rewrite (Hz eq_refl). simpl. rewrite Hrest. reflexivity.
  - rewrite is_digit_digit_char by assumption.
    rewrite Hread. reflexivity.
Qed.

(** *** Denominators that divide a power of ten *)

Lemma divides_10_cases g : (0 < g)%Z -> (g | 10)%Z -> g = 1%Z \/ (2 | g)%Z \/ (5 | g)%Z.
Proof.
  intros Hg Hd.
  assert (Hle : (g <= 10)%Z) by (apply Z.divide_pos_le; [lia | assumption]).
  assert (g = 1 \/ g = 2 \/ g = 3 \/ g = 4 \/ g = 5 \/ g = 6 \/ g = 7 \/
          g = 8 \/ g = 9 \/ g = 10)%Z as Hc by lia.
  destruct Hd as [c Hc'].
  repeat (destruct Hc as [-> | Hc]);
    try (left; reflexivity);
    try (right; left; now exists 1%Z);
    try (right; right; now exists 1%Z);
    try (right; left; now exists 5%Z);
    try lia.
Qed.

(** A denominator above one that divides a power of ten has the factor 2
    or the factor 5. *)
Lemma factor_2_or_5 k : forall d,
  (1 < d)%Z -> (d | 10 ^ Z.of_nat k)%Z -> (2 | d)%Z \/ (5 | d)%Z.
Proof.
  induction k as [| k IH]; intros d Hd Hdiv.
  - simpl in Hdiv. apply Z.divide_1_r_nonneg in Hdiv; lia.
  - rewrite Nat2Z.inj_succ, Z.pow_succ_r in Hdiv by lia.
    destruct (divides_10_cases (Z.gcd d 10)) as [Hg | H25].
    + pose proof (Z.gcd_nonneg d 10).
      assert (Z.gcd d 10 <> 0)%Z by (intros E; apply Z.gcd_eq_0_r in E; lia).
      lia.
    + apply Z.gcd_divide_r.
    + apply IH; [assumption |]. now apply (Z.gauss d 10).
    + pose proof (Z.gcd_divide_l d 10) as Hl.
      destruct H25 as [H | H]; [left | right]; eapply Z.divide_trans; eauto.
Qed.

(** Such a denominator already divides ten to the power of its binary
    logarithm, which bounds the search of [frac_digits]. *)
Lemma divides_pow10_log2 k d :
  (0 < d)%Z -> (d | 10 ^ Z.of_nat k)%Z -> (d | 10 ^ Z.log2 d)%Z.
Proof.
  intros Hd. assert (H0 : (0 <= d)%Z) by lia.
  revert Hd. pattern d. apply Z_lt_induction; [| exact H0].
  clear d H0. intros d IH Hd Hdiv.
  destruct (Z.eq_dec d 1) as [-> | Hne]; [apply Z.divide_refl |].
  assert (H25 : exists p, (p = 2 \/ p = 5)%Z /\ (p | d)%Z).
  { destruct (factor_2_or_5 k d ltac:(lia) Hdiv) as [H | H];
      [exists 2%Z | exists 5%Z]; auto. }
  destruct H25 as (p & Hp & [c Hc]).
  assert (Hc0 : (0 < c < d)%Z) by nia.
  assert (Hcdiv : (c | 10 ^ Z.of_nat k)%Z).
  { apply Z.divide_trans with d; [| assumption]. exists p. lia. }
  pose proof (IH c ltac:(lia) ltac:(lia) Hcdiv) as IHc.
  assert (Hlog : (Z.log2 c + 1 <= Z.log2 d)%Z).
  { pose proof (Z.log2_double c ltac:(lia)) as E.
    pose proof (Z.log2_le_mono (2 * c) d ltac:(nia)). lia. }
  pose proof (Z.log2_nonneg c) as Hnn.
  replace (Z.log2 d) with (Z.log2 c + 1 + (Z.log2 d - Z.log2 c - 1))%Z by lia.
  rewrite Z.pow_add_r, Z.pow_add_r by lia.
  apply Z.divide_mul_l. subst d.
  destruct IHc as [a Ha]. rewrite Ha. change (10 ^ 1)%Z with 10%Z.
  destruct Hp as [-> | ->]; [exists (a * 5)%Z | exists (a * 2)%Z]; ring.
Qed.

Lemma N_divide_Z a b : (Z.of_N a | Z.of_N b)%Z -> N.divide a b.
Proof.
  intros [c Hc].
  destruct (N.eq_dec a 0) as [-> | Ha].
  - exists 0%N. lia.
  - exists (Z.to_N c). nia.
Qed.

Lemma Z_log2_pos d : Z.log2 (Z.pos d) = Z.of_N (N.log2 (N.pos d)).
Proof. destruct d; reflexivity. Qed.

Lemma find_scale_spec d fuel : forall k p,
  d <> 0%N -> p = (10 ^ N.of_nat k)%N ->
  (exists j, (j < fuel)%nat /\ N.divide d (10 ^ N.of_nat (k + j))) ->
  N.divide d (10 ^ N.of_nat (find_scale fuel k p d)).
Proof.
  induction fuel as [| fuel IH]; intros k p Hd Hp (j & Hj & Hdiv); [lia |].
  simpl. destruct (N.eqb_spec (p mod d) 0) as [E | E].
  - subst p. now apply N.Lcm0.mod_divide.
  - apply IH; [assumption | rewrite pow10_succ; lia |].
    destruct j as [| j].
    + exfalso. apply E. apply N.Lcm0.mod_divide.
      rewrite Nat.add_0_r in Hdiv. now subst p.
    + exists j. split; [lia |].
      replace (S k + j)%nat with (k + S j)%nat by lia. exact Hdiv.
Qed.

(** On a finite decimal the printer finds a scale that clears the
    denominator. *)
Lemma frac_digits_spec q :
  finite_decimal q -> N.divide (N.pos (Qden q)) (10 ^ N.of_nat (frac_digits (Qden q))).
Proof.
  intros [k Hk]. unfold frac_digits.
  apply find_scale_spec; [discriminate | reflexivity |].
  exists (N.to_nat (N.log2 (N.pos (Qden q)))). split; [lia |].
  apply N_divide_Z. change (0 + ?n)%nat with n.
  rewrite N2Nat.id, N2Z.inj_pow, <- Z_log2_pos.
  apply (divides_pow10_log2 k); [reflexivity | exact Hk].
Qed.

Lemma number_end_no_digit rest :
  number_end rest = true -> starts_with_digit rest = false.
Proof.
  destruct rest as [| c r]; simpl; [reflexivity |].
  destruct (is_digit c); [discriminate | reflexivity].
Qed.

Lemma parse_frac_none rest :
  number_end rest = true -> parse_frac rest = Some (0%N, 0%nat, rest).
Proof.
  destruct rest as [| c r]; simpl; [reflexivity |].
  destruct (is_digit c); [discriminate |].
  destruct (Ascii.eqb c "."); [discriminate | reflexivity].
Qed.

Lemma parse_exp_none rest :
  number_end rest = true -> parse_exp rest = Some (0%Z, rest).
Proof.
  destruct rest as [| c r]; simpl; [reflexivity |].
  destruct (is_digit c); [discriminate |].
  destruct (Ascii.eqb c "."); [discriminate |].
  destruct (Ascii.eqb c "e"); [discriminate |].
  destruct (Ascii.eqb c "E"); [discriminate | reflexivity].
Qed.

Lemma parse_frac_digits k m rest :
  number_end rest = true ->
  parse_frac ("."%char :: fixed_digits (S k) m ++ rest) =
  Some ((m mod 10 ^ N.of_nat (S k))%N, S k, rest).
Proof.
  intros H. unfold parse_frac.
  change (Ascii.eqb "." ".") with true. cbv iota.
  rewrite read_fixed_digits_stop by now apply number_end_no_digit.
  reflexivity.
Qed.

(** The value of the literal that [print_number] writes. *)
Lemma literal_value_print q :
  printable q ->
  let k := frac_digits (Qden q) in
  let m := (Z.abs_N (Qnum q) * 10 ^ N.of_nat k / N.pos (Qden q))%N in
  literal_value (Qnum q <? 0)%Z (m / 10 ^ N.of_nat k) (m mod 10 ^ N.of_nat k) k 0 = q.
Proof.
  intros [Hcanon Hdec] k m.
  pose proof (frac_digits_spec q Hdec) as [c Hc]. fold k in Hc.
  assert (Hm : (m * N.pos (Qden q) = Z.abs_N (Qnum q) * 10 ^ N.of_nat k)%N).
  { unfold m. rewrite Hc.
    rewrite N.mul_assoc, N.div_mul by discriminate. reflexivity. }
  unfold literal_value.
  assert (E : (m / 10 ^ N.of_nat k * 10 ^ N.of_nat k + m mod 10 ^ N.of_nat k)%N = m).
  { pose proof (N.Div0.div_mod m (10 ^ N.of_nat k)). lia. }
  rewrite E. transitivity (Qred q); [| exact Hcanon].
  apply Qred_complete.
  change (Qpower 10 0) with 1.
  assert (Hp : (0 < 10 ^ Z.of_nat k)%Z) by (apply Z.pow_pos_nonneg; lia).
  apply (f_equal Z.of_N) in Hm.
  rewrite !N2Z.inj_mul, N2Z.inj_pow, N2Z.inj_abs_N, nat_N_Z in Hm.
  simpl Z.of_N in Hm.
  destruct q as [n d]. simpl Qnum in *. simpl Qden in *.
  destruct (Z.ltb_spec n 0) as [Hn | Hn]; rewrite Qmult_1_r;
    unfold Qeq; simpl Qnum; simpl Qden;
    rewrite ?Z2Pos.id by assumption.
  - rewrite Z.abs_neq in Hm by lia. lia.
  - rewrite Z.abs_eq in Hm by lia. lia.
Qed.

Lemma eqb_digit_char_minus d : (d < 10)%N -> Ascii.eqb (digit_char d) "-" = false.
Proof.
  intros H. apply Ascii.eqb_neq. intros E.
  apply (f_equal N_of_ascii) in E. rewrite N_of_digit_char in E by assumption.
  change (N_of_ascii "-") with 45%N in E. lia.
Qed.

Lemma print_N_head n : exists d r, (d < 10)%N /\ print_N n = digit_char d :: r.
Proof.
  destruct (print_N_spec n) as (k & -> & _).
  rewrite fixed_digits_head. eexists. eexists. split; [| reflexivity].
  apply N.mod_lt. lia.
Qed.

(** The digits and the fraction that [print_number] writes after the sign
    are read back by the three stages of [parse_number]. *)
Lemma parse_unsigned_print k m rest :
  number_end rest = true ->
  let body := print_N (m / 10 ^ N.of_nat k) ++
              match k with
              | O => []
              | S _ => "."%char :: fixed_digits k m
              end in
  exists s2,
    parse_int (body ++ rest) = Some ((m / 10 ^ N.of_nat k)%N, s2) /\
    parse_frac s2 = Some ((m mod 10 ^ N.of_nat k)%N, k, rest) /\
    parse_exp rest = Some (0%Z, rest).
Proof.
  intros Hrest body. subst body. rewrite <- app_assoc.
  eexists. split; [| split].
  - apply parse_int_print_N.
    destruct k; [now apply number_end_no_digit | reflexivity].
  - destruct k as [| k].
    + simpl app. rewrite N.mod_1_r. now apply parse_frac_none.
    + simpl app. now apply parse_frac_digits.
  - now apply parse_exp_none.
Qed.

(** A printable number is read back from its text. *)
Lemma parse_print_number q rest :
  printable q -> number_end rest = true ->
  parse_number (print_number q ++ rest) = Some (q, rest).
Proof.
  intros Hq Hrest.
  pose proof (literal_value_print q Hq) as Hval. cbv zeta in Hval.
  unfold print_number.
  set (k := frac_digits (Qden q)) in *.
  set (m := (Z.abs_N (Qnum q) * 10 ^ N.of_nat k / N.pos (Qden q))%N) in *.
  destruct (parse_unsigned_print k m rest Hrest) as (s2 & Hint & Hfrac & Hexp).
  cbv zeta in Hint.
  set (body := print_N (m / 10 ^ N.of_nat k) ++
               match k with
               | O => []
               | S _ => "."%char :: fixed_digits k m
               end) in *.
  rewrite <- app_assoc. fold body.
  assert (Hgo : match parse_int (body ++ rest) with
                | None => None
                | Some (ip, s2) =>
                    match parse_frac s2 with
                    | None => None
                    | Some (fp, k, s3) =>
                        match parse_exp s3 with
                        | None => None
                        | Some (e, s4) =>
                            Some (literal_value (Qnum q <? 0)%Z ip fp k e, s4)
                        end
                    end
                end = Some (q, rest)).
  { rewrite Hint, Hfrac, Hexp, Hval. reflexivity. }
  unfold parse_number.
  destruct (Qnum q <? 0)%Z.
  - simpl app. change (Ascii.eqb "-" "-") with true. cbv iota. exact Hgo.
  - simpl app.
    destruct (print_N_head (m / 10 ^ N.of_nat k)) as (d & r & Hd & Er).
    assert (Eb : body ++ rest = digit_char d :: (r ++
               match k with
               | O => []
               | S _ => "."%char :: fixed_digits k m
               end) ++ rest).
    { unfold body. rewrite Er. reflexivity. }
    rewrite Eb in *. rewrite eqb_digit_char_minus by assumption. exact Hgo.
Qed.

(** ** JSON strings: reading back what was quoted *)

Lemma parse_escape_char c tail :
  parse_string_body (escape_char c ++ tail) =
  cons_to c (parse_string_body tail).
Proof.
  destruct c as [[] [] [] [] [] [] [] []]; reflexivity.
Qed.

Lemma parse_string_body_print s rest :
  parse_string_body (flat_map escape_char s ++ quote :: rest) = Some (s, rest).
Proof.
  induction s as [| c s IH]; [reflexivity |].
  simpl flat_map. rewrite <- app_assoc, parse_escape_char, IH. reflexivity.
Qed.

Lemma parse_print_string s rest :
  exists r, print_string s ++ rest = quote :: r /\
            parse_string r = Some (s, rest).
Proof.
  unfold print_string. eexists. split.
  - simpl. rewrite <- app_assoc. reflexivity.
  - unfold parse_string. simpl app.
    rewrite parse_string_body_print, string_of_list_ascii_of_string.
    reflexivity.
Qed.

(** ** JSON values: reading back what was printed *)

(** *** Whitespace *)

Lemma skip_ws_start c r : is_ws c = false -> skip_ws (c :: r) = c :: r.
Proof. intros H. simpl. rewrite H. reflexivity. Qed.

Lemma skip_ws_spaces n s : skip_ws (spaces n ++ s) = skip_ws s.
Proof. induction n as [| n IH]; [reflexivity | exact IH]. Qed.

Lemma skip_ws_line n s : skip_ws (newline :: spaces n ++ s) = skip_ws s.
Proof. simpl. apply skip_ws_spaces. Qed.

Lemma skip_ws_idem s : skip_ws (skip_ws s) = skip_ws s.
Proof.
  induction s as [| c s IH]; [reflexivity |].
  simpl. destruct (is_ws c) eqn:E; [exact IH |].
  simpl. rewrite E. reflexivity.
Qed.

Lemma parse_value_skip fuel s :
  parse_value fuel (skip_ws s) = parse_value fuel s.
Proof. destruct fuel; simpl; [reflexivity |]. rewrite skip_ws_idem. reflexivity. Qed.

Lemma parse_members_skip fuel s :
  parse_members fuel (skip_ws s) = parse_members fuel s.
Proof. destruct fuel; simpl; [reflexivity |]. rewrite skip_ws_idem. reflexivity. Qed.

Lemma value_start_not_ws c : value_start c = true -> is_ws c = false.
Proof. destruct c as [[] [] [] [] [] [] [] []]; cbv; congruence. Qed.

(** *** The first character of a printed value *)

Lemma print_number_head q :
  exists c r, print_number q = c :: r /\ value_start c = true /\
              (Ascii.eqb c "-" || is_digit c) = true.
Proof.
  unfold print_number. destruct (Qnum q <? 0)%Z.
  - eexists. eexists. split; [reflexivity | split; reflexivity].
  - destruct (print_N_head
                (Z.abs_N (Qnum q) * 10 ^ N.of_nat (frac_digits (Qden q)) /
                 N.pos (Qden q) / 10 ^ N.of_nat (frac_digits (Qden q))))
      as (d & r & Hd & ->).
    eexists. eexists. split; [reflexivity |].
    unfold value_start. rewrite is_digit_digit_char by assumption.
    rewrite orb_true_r. split; reflexivity.
Qed.

Lemma stringify_at_head ind v :
  exists c r, stringify_at ind v = c :: r /\ value_start c = true.
Proof.
  destruct v as [| [] | n | s | [| v0 vs] | [| kv ms]];
    try (eexists; eexists; split; reflexivity).
  destruct (print_number_head n) as (c & r & E & H & _).
  exists c, r. split; assumption.
Qed.

Lemma skip_ws_stringify ind v rest :
  skip_ws (stringify_at ind v ++ rest) = stringify_at ind v ++ rest.
Proof.
  destruct (stringify_at_head ind v) as (c & r & -> & H).
  apply skip_ws_start, value_start_not_ws, H.
Qed.

(** *** Leaves *)

Lemma delimited_number_end rest : delimited rest = true -> number_end rest = true.
Proof.
  destruct rest as [| c r]; [reflexivity |]. simpl.
  destruct c as [[] [] [] [] [] [] [] []]; cbv; congruence.
Qed.

(** Where [parse_value] hands over to [parse_number]. *)
Lemma parse_value_number fuel c r :
  (Ascii.eqb c "-" || is_digit c) = true ->
  parse_value (S fuel) (c :: r) =
  match parse_number (c :: r) with
  | Some (n, r') => Some (JNum n, r')
  | None => None
  end.
Proof.
  destruct c as [[] [] [] [] [] [] [] []]; simpl; try discriminate; reflexivity.
Qed.

Lemma parse_print_leaf_number fuel ind q rest :
  printable q -> delimited rest = true ->
  parse_value (S fuel) (stringify_at ind (JNum q) ++ rest) = Some (JNum q, rest).
Proof.
  intros Hq Hrest. simpl stringify_at.
  pose proof (parse_print_number q rest Hq (delimited_number_end _ Hrest)) as Hp.
  destruct (print_number_head q) as (c & r & E & _ & Hc).
  rewrite E in *. simpl app in *.
  rewrite parse_value_number by assumption. rewrite Hp. reflexivity.
Qed.

Lemma parse_print_leaf_string fuel ind s rest :
  parse_value (S fuel) (stringify_at ind (JStr s) ++ rest) = Some (JStr s, rest).
Proof.
  simpl stringify_at.
  destruct (parse_print_string s rest) as (r & -> & Hr).
  cbn -[parse_string]. rewrite Hr. reflexivity.
Qed.

(** *** Objects without repeated keys *)

Lemma obj_set_fresh k v o :
  ~ In k (map fst o) -> obj_set k v o = o ++ [(k, v)].
Proof.
  induction o as [| [k' v'] o IH]; simpl; intros H; [reflexivity |].
  destruct (String.eqb_spec k' k) as [E | E]; [exfalso; auto |].
  rewrite IH by tauto. reflexivity.
Qed.

Lemma obj_of_members_from ms : forall acc,
  NoDup (map fst (acc ++ ms)) ->
  fold_left (fun o kv => obj_set (fst kv) (snd kv) o) ms acc = acc ++ ms.
Proof.
  induction ms as [| [k v] ms IH]; intros acc H; simpl.
  - now rewrite app_nil_r.
  - rewrite obj_set_fresh.
    + rewrite IH; rewrite <- app_assoc; [reflexivity | exact H].
    + rewrite map_app in H. simpl in H.
      apply NoDup_remove_2 in H. intros Hin. apply H.
      apply in_or_app. left. exact Hin.
Qed.

Lemma obj_of_members_NoDup ms :
  NoDup (map fst ms) -> obj_of_members ms = ms.
Proof. intros H. apply (obj_of_members_from ms [] H). Qed.

(** *** One step of each reader *)

Lemma parse_elements_skip fuel s :
  parse_elements fuel (skip_ws s) = parse_elements fuel s.
Proof. destruct fuel; simpl; [reflexivity |]. rewrite parse_value_skip. reflexivity. Qed.

Lemma parse_elements_last f s v ind rest :
  parse_value f s = Some (v, newline :: spaces ind ++ "]"%char :: rest) ->
  parse_elements (S f) s = Some ([v], rest).
Proof.
  intros H. cbn [parse_elements]. rewrite H, skip_ws_line. reflexivity.
Qed.

Lemma parse_elements_more f s v r vs rest :
  parse_value f s = Some (v, ","%char :: r) ->
  parse_elements f r = Some (vs, rest) ->
  parse_elements (S f) s = Some (v :: vs, rest).
Proof.
  intros H1 H2. cbn [parse_elements]. rewrite H1.
  rewrite (skip_ws_start "," r) by reflexivity.
  change (Ascii.eqb "," ",") with true. cbv iota. rewrite H2. reflexivity.
Qed.

Lemma parse_members_last f r0 k r2 v ind rest :
  parse_string r0 = Some (k, ":"%char :: r2) ->
  parse_value f r2 = Some (v, newline :: spaces ind ++ "}"%char :: rest) ->
  parse_members (S f) (quote :: r0) = Some ([(k, v)], rest).
Proof.
  intros H1 H2. cbn [parse_members].
  rewrite (skip_ws_start quote r0) by reflexivity.
  change (Ascii.eqb quote quote) with true. cbv iota. rewrite H1.
  rewrite (skip_ws_start ":" r2) by reflexivity.
  change (Ascii.eqb ":" ":") with true. cbv iota. rewrite H2, skip_ws_line.
  reflexivity.
Qed.

Lemma parse_members_more f r0 k r2 v r4 ms rest :
  parse_string r0 = Some (k, ":"%char :: r2) ->
  parse_value f r2 = Some (v, ","%char :: r4) ->
  parse_members f r4 = Some (ms, rest) ->
  parse_members (S f) (quote :: r0) = Some ((k, v) :: ms, rest).
Proof.
  intros H1 H2 H3. cbn [parse_members].
  rewrite (skip_ws_start quote r0) by reflexivity.
  change (Ascii.eqb quote quote) with true. cbv iota. rewrite H1.
  rewrite (skip_ws_start ":" r2) by reflexivity.
  change (Ascii.eqb ":" ":") with true. cbv iota. rewrite H2.
  rewrite (skip_ws_start "," r4) by reflexivity.
  change (Ascii.eqb "," ",") with true. cbv iota. rewrite H3.
  reflexivity.
Qed.

Lemma parse_value_array f r c r' vs rest :
  skip_ws r = c :: r' -> value_start c = true ->
  parse_elements f r = Some (vs, rest) ->
  parse_value (S f) ("["%char :: r) = Some (JArr vs, rest).
Proof.
  intros H1 Hc H2. cbn [parse_value].
  rewrite (skip_ws_start "[" r) by reflexivity.
  cbn -[parse_elements skip_ws]. rewrite H1, H2.
  assert (Ascii.eqb c "]" = false) as ->; [| reflexivity].
  destruct c as [[] [] [] [] [] [] [] []]; try reflexivity; discriminate.
Qed.

Lemma parse_value_object f r c r' ms rest :
  skip_ws r = c :: r' -> c = quote ->
  parse_members f r = Some (ms, rest) ->
  parse_value (S f) ("{"%char :: r) = Some (JObj (obj_of_members ms), rest).
Proof.
  intros H1 -> H2. cbn [parse_value].
  rewrite (skip_ws_start "{" r) by reflexivity.
  cbn -[parse_members skip_ws obj_of_members]. rewrite H1, H2. reflexivity.
Qed.

(** *** The round trip *)

Lemma print_elems_cons pr ind' v vs tail :
  print_elems pr ind' (v :: vs) ++ tail =
  ","%char :: newline :: spaces ind' ++ pr v ++ print_elems pr ind' vs ++ tail.
Proof. simpl. rewrite <- !app_assoc. reflexivity. Qed.

Lemma print_members_cons pr ind' k v ms tail :
  print_members pr ind' ((k, v) :: ms) ++ tail =
  ","%char :: newline :: spaces ind' ++
  print_string k ++ ":"%char :: " "%char :: pr v ++
  print_members pr ind' ms ++ tail.
Proof.
  cbn [print_members fst snd]. fold (print_members pr ind').
  rewrite <- !app_comm_cons, <- !app_assoc, <- !app_comm_cons, <- !app_assoc.
  reflexivity.
Qed.

Lemma reads_back_elements vs :
  Forall reads_back vs -> forall v0, reads_back v0 ->
  exists n, forall fuel ind' ind rest, (n <= fuel)%nat ->
    parse_elements fuel
      (stringify_at ind' v0 ++ print_elems (stringify_at ind') ind' vs ++
       newline :: spaces ind ++ "]"%char :: rest)
    = Some (v0 :: vs, rest).
Proof.
  induction 1 as [| v1 vs H1 _ IH]; intros v0 [n0 H0].
  - exists (S n0). intros fuel ind' ind rest Hf.
    destruct fuel as [| f]; [lia |].
    apply parse_elements_last with ind. apply H0; [lia | reflexivity].
  - destruct (IH v1 H1) as [n1 Hn1].
    exists (S (Nat.max n0 n1)). intros fuel ind' ind rest Hf.
    destruct fuel as [| f]; [lia |].
    rewrite print_elems_cons.
    eapply parse_elements_more.
    + apply H0; [lia | reflexivity].
    + rewrite <- parse_elements_skip, skip_ws_line, parse_elements_skip.
      apply Hn1. lia.
Qed.

Lemma reads_back_members ms :
  Forall (fun kv => reads_back (snd kv)) ms -> forall k0 v0, reads_back v0 ->
  exists n, forall fuel ind' ind rest, (n <= fuel)%nat ->
    parse_members fuel
      (print_string k0 ++ ":"%char :: " "%char :: stringify_at ind' v0 ++
       print_members (stringify_at ind') ind' ms ++
       newline :: spaces ind ++ "}"%char :: rest)
    = Some ((k0, v0) :: ms, rest).
Proof.
  induction 1 as [| [k1 v1] ms H1 _ IH]; intros k0 v0 [n0 H0].
  - exists (S n0). intros fuel ind' ind rest Hf.
    destruct fuel as [| f]; [lia |].
    destruct (parse_print_string k0
                (":"%char :: " "%char :: stringify_at ind' v0 ++
                 print_members (stringify_at ind') ind' [] ++
                 newline :: spaces ind ++ "}"%char :: rest))
      as (r0 & -> & Hr0).
    eapply parse_members_last; [exact Hr0 |].
    rewrite <- parse_value_skip.
    change (skip_ws (" "%char :: ?s)) with (skip_ws s).
    rewrite parse_value_skip.
    apply H0; [lia | reflexivity].
  - destruct (IH k1 v1 H1) as [n1 Hn1].
    exists (S (Nat.max n0 n1)). intros fuel ind' ind rest Hf.
    destruct fuel as [| f]; [lia |].
    rewrite print_members_cons.
    destruct (parse_print_string k0
                (":"%char :: " "%char :: stringify_at ind' v0 ++
                 ","%char :: newline :: spaces ind' ++
                 print_string k1 ++ ":"%char :: " "%char :: stringify_at ind' v1 ++
                 print_members (stringify_at ind') ind' ms ++
                 newline :: spaces ind ++ "}"%char :: rest))
      as (r0 & -> & Hr0).
    eapply parse_members_more; [exact Hr0 | |].
    + rewrite <- parse_value_skip.
      change (skip_ws (" "%char :: ?s)) with (skip_ws s).
      rewrite parse_value_skip.
      apply H0; [lia | reflexivity].
    + rewrite <- parse_members_skip, skip_ws_line, parse_members_skip.
      apply Hn1. lia.
Qed.

Ltac norm_app :=
  repeat (rewrite <- app_comm_cons || rewrite <- app_assoc); cbn [app].

(** Every well-formed value is read back from its text. *)
Theorem wf_reads_back v : wf_value v -> reads_back v.
Proof.
  induction v as [| b | n | s | l IH | ms IH] using value_ind; intros Hwf.
  - exists 1%nat. intros [| f] ind rest Hf _; [lia | reflexivity].
  - exists 1%nat. intros [| f] ind rest Hf _; [lia |]. destruct b; reflexivity.
  - inversion Hwf; subst.
    exists 1%nat. intros [| f] ind rest Hf Hr; [lia |].
    now apply parse_print_leaf_number.
  - exists 1%nat. intros [| f] ind rest Hf _; [lia |].
    apply parse_print_leaf_string.
  - inversion Hwf as [| | | | l' Hl |]; subst.
    assert (Hrb : Forall reads_back l).
    { clear Hwf. induction IH as [| v l Hv _ IHl]; inversion Hl; subst;
        constructor; auto. }
    destruct Hrb as [| v0 vs H0 Hvs].
    + exists 1%nat. intros [| f] ind rest Hf _; [lia | reflexivity].
    + destruct (reads_back_elements vs Hvs v0 H0) as [n Hn].
      exists (S n). intros [| f] ind rest Hf _; [lia |].
      cbn [stringify_at]. rewrite <- !app_comm_cons, <- !app_assoc.
      destruct (stringify_at_head (ind + indent_step) v0) as (c & r & E & Hc).
      eapply parse_value_array with (c := c).
      * rewrite skip_ws_line, E. simpl app.
        apply skip_ws_start, value_start_not_ws, Hc.
      * exact Hc.
      * rewrite <- parse_elements_skip, skip_ws_line, parse_elements_skip.
        norm_app. apply Hn. lia.
  - inversion Hwf as [| | | | | ms' Hnd Hms]; subst.
    assert (Hrb : Forall (fun kv => reads_back (snd kv)) ms).
    { clear Hwf Hnd. induction IH as [| kv ms Hv _ IHl]; inversion Hms; subst;
        constructor; auto. }
    destruct Hrb as [| [k0 v0] ms H0 Hvs].
    + exists 1%nat. intros [| f] ind rest Hf _; [lia | reflexivity].
    + destruct (reads_back_members ms Hvs k0 v0 H0) as [n Hn].
      exists (S n). intros [| f] ind rest Hf _; [lia |].
      rewrite <- (obj_of_members_NoDup _ Hnd) at 2.
      cbn [stringify_at fst snd]. rewrite <- !app_comm_cons, <- !app_assoc.
      eapply parse_value_object with (c := quote).
      * rewrite skip_ws_line. unfold print_string. simpl app.
        apply skip_ws_start. reflexivity.
      * reflexivity.
      * rewrite <- parse_members_skip, skip_ws_line, parse_members_skip.
        norm_app. apply Hn. lia.
Qed.

(** ** The reader never runs out of fuel

    Each reader gives back strictly less text than it was given, so fuel
    beyond twice the length of the text changes nothing: a [None] of
    [JSON.parse] is a syntax error of the text. *)

Lemma skip_ws_length s : (List.length (skip_ws s) <= List.length s)%nat.
Proof.
  induction s as [| c s IH]; simpl; [lia |].
  destruct (is_ws c); simpl; lia.
Qed.

Lemma strip_prefix_length p : forall s r,
  strip_prefix p s = Some r -> (List.length r <= List.length s)%nat.
Proof.
  induction p as [| a p IH]; intros s r H; simpl in H.
  - injection H as <-. lia.
  - destruct s as [| b s]; [discriminate |].
    destruct (Ascii.eqb a b); [| discriminate].
    apply IH in H. simpl. lia.
Qed.

Lemma cons_to_inv {A B : Type} (a : A) (res : option (list A * B)) l r :
  cons_to a res = Some (l, r) -> exists l', res = Some (l', r).
Proof.
  destruct res as [[l' r'] |]; simpl; [| discriminate].
  intros [= <- <-]. now exists l'.
Qed.

Lemma parse_string_body_length n : forall s b r,
  (List.length s <= n)%nat ->
  parse_string_body s = Some (b, r) -> (List.length r < List.length s)%nat.
Proof.
  induction n as [| n IH]; intros s b r Hn H.
  - destruct s; [discriminate | simpl in Hn; lia].
  - destruct s as [| c s]; [discriminate |].
    simpl in Hn. cbn [parse_string_body] in H.
    destruct (Ascii.eqb c quote).
    { injection H as <- <-. simpl. lia. }
    destruct (Ascii.eqb c backslash).
    + destruct s as [| e s]; [discriminate |].
      destruct (Ascii.eqb e "u").
      * destruct s as [| a1 [| a2 [| a3 [| a4 s]]]]; try discriminate.
        destruct (unescape_hex a1 a2 a3 a4); [| discriminate].
        apply cons_to_inv in H as [l' H].
        apply IH in H; simpl in *; lia.
      * destruct (unescape e); [| discriminate].
        apply cons_to_inv in H as [l' H].
        apply IH in H; simpl in *; lia.
    + destruct (N_of_ascii c <? 32)%N; [discriminate |].
      apply cons_to_inv in H as [l' H].
      apply IH in H; simpl in *; lia.
Qed.

Lemma parse_string_length s k r :
  parse_string s = Some (k, r) -> (List.length r < List.length s)%nat.
Proof.
  unfold parse_string.
  destruct (parse_string_body s) as [[b r'] |] eqn:E; [| discriminate].
  intros [= _ <-]. now apply (parse_string_body_length (List.length s)) in E.
Qed.

Lemma read_digits_length s : forall acc k n k' r,
  read_digits acc k s = (n, k', r) -> (List.length r <= List.length s)%nat.
Proof.
  induction s as [| c s IH]; intros acc k n k' r H; simpl in H.
  - injection H as _ _ <-. lia.
  - destruct (is_digit c).
    + apply IH in H. simpl. lia.
    + injection H as _ _ <-. lia.
Qed.

Lemma parse_int_length s n r :
  parse_int s = Some (n, r) -> (List.length r < List.length s)%nat.
Proof.
  unfold parse_int. destruct s as [| c s]; [discriminate |].
  destruct (Ascii.eqb c "0").
  - destruct (starts_with_digit s); [discriminate |].
    intros [= _ <-]. simpl. lia.
  - destruct (is_digit c) eqn:Ed; [| discriminate].
    destruct (read_digits 0 0 (c :: s)) as [[n' k'] r'] eqn:E.
    intros [= _ <-]. simpl in E. rewrite Ed in E.
    apply read_digits_length in E. simpl. lia.
Qed.

Lemma parse_frac_length s n k r :
  parse_frac s = Some (n, k, r) -> (List.length r <= List.length s)%nat.
Proof.
  unfold parse_frac. destruct s as [| c s]; [intros [= _ _ <-]; lia |].
  destruct (Ascii.eqb c ".").
  - destruct (read_digits 0 0 s) as [[n' k'] r'] eqn:E.
    apply read_digits_length in E.
    destruct k'; [discriminate |]. intros [= _ _ <-]. simpl. lia.
  - intros [= _ _ <-]. lia.
Qed.

Lemma parse_exp_length s e r :
  parse_exp s = Some (e, r) -> (List.length r <= List.length s)%nat.
Proof.
  unfold parse_exp. destruct s as [| c s]; [intros [= _ <-]; lia |].
  destruct (Ascii.eqb c "e" || Ascii.eqb c "E").
  - destruct s as [| c1 s1].
    + simpl. discriminate.
    + destruct (Ascii.eqb c1 "-"); [| destruct (Ascii.eqb c1 "+")];
        match goal with
        | |- context [read_digits 0 0 ?t] =>
            destruct (read_digits 0 0 t) as [[n' k'] r'] eqn:E
        end;
        apply read_digits_length in E;
        (destruct k'; [discriminate |]); intros [= _ <-]; simpl in *; lia.
  - intros [= _ <-]. lia.
Qed.

Lemma parse_number_length s n r :
  parse_number s = Some (n, r) -> (List.length r < List.length s)%nat.
Proof.
  unfold parse_number.
  set (p := match s with
            | [] => (false, s)
            | c :: r0 => if Ascii.eqb c "-" then (true, r0) else (false, s)
            end).
  assert (Hp : (List.length (snd p) <= List.length s)%nat).
  { subst p. destruct s as [| c r0]; [simpl; lia |].
    destruct (Ascii.eqb c "-"); simpl; lia. }
  destruct p as [neg s1]. simpl in Hp.
  destruct (parse_int s1) as [[ip s2] |] eqn:E1; [| discriminate].
  destruct (parse_frac s2) as [[[fp k] s3] |] eqn:E2; [| discriminate].
  destruct (parse_exp s3) as [[e s4] |] eqn:E3; [| discriminate].
  intros [= _ <-].
  apply parse_int_length in E1. apply parse_frac_length in E2.
  apply parse_exp_length in E3. lia.
Qed.

(** Case analysis on the next test of a reader that succeeded. *)
Ltac reader_case H :=
  match type of H with
  | (if ?b then _ else _) = Some _ => destruct b eqn:?
  | match ?x with _ => _ end = Some _ => destruct x eqn:?
  | (let (_, _) := ?p in _) = Some _ => destruct p
  | option_map _ ?x = Some _ => destruct x eqn:?; simpl in H
  | None = Some _ => discriminate H
  end.

Lemma readers_consume fuel :
  (forall s v r, parse_value fuel s = Some (v, r) ->
                 (List.length r < List.length s)%nat) /\
  (forall s vs r, parse_elements fuel s = Some (vs, r) ->
                  (List.length r < List.length s)%nat) /\
  (forall s ms r, parse_members fuel s = Some (ms, r) ->
                  (List.length r < List.length s)%nat).
Proof.
  induction fuel as [| f (IHv & IHe & IHm)];
    [repeat split; intros; discriminate |].
  split; [| split]; intros s v r H.
  - cbn [parse_value] in H.
    pose proof (skip_ws_length s) as Hs.
    destruct (skip_ws s) as [| c t] eqn:Es; [discriminate |].
    simpl in Hs.
    repeat reader_case H;
      repeat match goal with
             | E : strip_prefix _ _ = Some _ |- _ =>
                 apply strip_prefix_length in E
             | E : parse_string _ = Some _ |- _ => apply parse_string_length in E
             | E : parse_number _ = Some _ |- _ => apply parse_number_length in E
             | E : parse_elements f _ = Some _ |- _ => apply IHe in E
             | E : parse_members f _ = Some _ |- _ => apply IHm in E
             | E : skip_ws ?x = _ |- _ =>
                 pose proof (skip_ws_length x); rewrite E in *; clear E
             end;
      injection H as <- <-; simpl in *; lia.
  - cbn [parse_elements] in H.
    repeat reader_case H;
      repeat match goal with
             | E : parse_value f _ = Some _ |- _ => apply IHv in E
             | E : parse_elements f _ = Some _ |- _ => apply IHe in E
             | E : skip_ws ?x = _ |- _ =>
                 pose proof (skip_ws_length x); rewrite E in *; clear E
             end;
      injection H as <- <-; simpl in *; lia.
  - cbn [parse_members] in H.
    repeat reader_case H;
      repeat match goal with
             | E : parse_value f _ = Some _ |- _ => apply IHv in E
             | E : parse_members f _ = Some _ |- _ => apply IHm in E
             | E : parse_string _ = Some _ |- _ => apply parse_string_length in E
             | E : skip_ws ?x = _ |- _ =>
                 pose proof (skip_ws_length x); rewrite E in *; clear E
             end;
      injection H as <- <-; simpl in *; lia.
Qed.

(** Fuel beyond twice the length of the text is never used. *)
Lemma readers_fuel f :
  (forall f' s, (2 * List.length s + 1 <= f)%nat -> (f <= f')%nat ->
                parse_value f' s = parse_value f s) /\
  (forall f' s, (2 * List.length s + 2 <= f)%nat -> (f <= f')%nat ->
                parse_elements f' s = parse_elements f s) /\
  (forall f' s, (2 * List.length s + 2 <= f)%nat -> (f <= f')%nat ->
                parse_members f' s = parse_members f s).
Proof.
  induction f as [| g (IHv & IHe & IHm)]; [repeat split; intros; lia |].
  split; [| split]; intros [| g'] s Hb Hf; try lia.
  - cbn [parse_value].
    pose proof (skip_ws_length s) as Hs.
    destruct (skip_ws s) as [| c t]; [reflexivity |]. simpl in Hs.
    destruct (Ascii.eqb c "n"); [reflexivity |].
    destruct (Ascii.eqb c "t"); [reflexivity |].
    destruct (Ascii.eqb c "f"); [reflexivity |].
    destruct (Ascii.eqb c quote); [reflexivity |].
    destruct (Ascii.eqb c "[").
    { destruct (skip_ws t) as [| c' t']; [reflexivity |].
      destruct (Ascii.eqb c' "]"); [reflexivity |].
      rewrite (IHe g' t) by lia. reflexivity. }
    destruct (Ascii.eqb c "{"); [| reflexivity].
    destruct (skip_ws t) as [| c' t']; [reflexivity |].
    destruct (Ascii.eqb c' "}"); [reflexivity |].
    rewrite (IHm g' t) by lia. reflexivity.
  - cbn [parse_elements]. rewrite (IHv g' s) by lia.
    destruct (parse_value g s) as [[v r] |] eqn:E; [| reflexivity].
    apply (proj1 (readers_consume g)) in E.
    pose proof (skip_ws_length r) as Hr.
    destruct (skip_ws r) as [| c r']; [reflexivity |]. simpl in Hr.
    destruct (Ascii.eqb c ","); [| reflexivity].
    rewrite (IHe g' r') by lia. reflexivity.
  - cbn [parse_members].
    pose proof (skip_ws_length s) as Hs.
    destruct (skip_ws s) as [| q r0]; [reflexivity |]. simpl in Hs.
    destruct (Ascii.eqb q quote); [| reflexivity].
    destruct (parse_string r0) as [[k r1] |] eqn:E1; [| reflexivity].
    apply parse_string_length in E1.
    pose proof (skip_ws_length r1) as Hr1.
    destruct (skip_ws r1) as [| c r2]; [reflexivity |]. simpl in Hr1.
    destruct (Ascii.eqb c ":"); [| reflexivity].
    rewrite (IHv g' r2) by lia.
    destruct (parse_value g r2) as [[v r3] |] eqn:E3; [| reflexivity].
    apply (proj1 (readers_consume g)) in E3.
    pose proof (skip_ws_length r3) as Hr3.
    destruct (skip_ws r3) as [| c' r4]; [reflexivity |]. simpl in Hr3.
    destruct (Ascii.eqb c' ","); [| reflexivity].
    rewrite (IHm g' r4) by lia. reflexivity.
Qed.

(** More fuel than [JSON.parse] gives changes no result. *)
Theorem parse_value_fuel fuel s :
  (2 * List.length s + 1 <= fuel)%nat ->
  parse_value fuel s = parse_value (2 * List.length s + 1) s.
Proof.
  intros H. apply (proj1 (readers_fuel (2 * List.length s + 1))); lia.
Qed.

(** [JSON.parse (JSON.stringify (v, null, 2)) = v] on well-formed values. *)
Theorem parse_stringify v :
  wf_value v -> JSON.parse (JSON.stringify v) = Some v.
Proof.
  intros Hwf. destruct (wf_reads_back v Hwf) as [n Hn].
  unfold JSON.parse, JSON.stringify.
  rewrite list_ascii_of_string_of_list_ascii.
  set (s := stringify_at 0 v).
  rewrite <- (parse_value_fuel (Nat.max n (2 * List.length s + 1)) s) by lia.
  rewrite <- (app_nil_r s) at 2. unfold s.
  rewrite Hn by (lia || reflexivity). reflexivity.
Qed.

(** ** Printable numbers are closed under the handlers

    The boards that the handlers build from finite decimals hold finite
    decimals again, so the hypothesis of the round trip is an invariant of
    the application. *)

Lemma printable_by_scale a (k : nat) :
  Qred a = a -> (10 ^ Z.of_nat k mod Z.pos (Qden a) = 0)%Z -> printable a.
Proof.
  intros Hc Hm. split; [exact Hc |]. exists k.
  apply Z.mod_divide; [discriminate | exact Hm].
Qed.

Lemma printable_of_Z z : printable (of_Z z).
Proof.
  apply (printable_by_scale _ 0); [| reflexivity].
  apply Qcanon.Qred_identity. simpl. apply Z.gcd_1_r.
Qed.

Lemma Qden_Qred_divide q : (Z.pos (Qden (Qred q)) | Z.pos (Qden q))%Z.
Proof.
  destruct q as [n d]. unfold Qred.
  pose proof (Z.ggcd_correct_divisors n (Z.pos d)) as H.
  pose proof (Z.ggcd_gcd n (Z.pos d)) as Hg.
  pose proof (Z.gcd_nonneg n (Z.pos d)) as Hnn.
  destruct (Z.ggcd n (Z.pos d)) as [g [nn dd]]. simpl in *.
  destruct H as [_ Hd]. subst g.
  assert (0 < dd)%Z by nia.
  rewrite Z2Pos.id by assumption.
  exists (Z.gcd n (Z.pos d)). lia.
Qed.

Lemma printable_Qred q k :
  (Z.pos (Qden q) | 10 ^ Z.of_nat k)%Z -> printable (Qred q).
Proof.
  intros H. split; [apply Qcanon.Qred_involutive |].
  exists k. eapply Z.divide_trans; [apply Qden_Qred_divide | exact H].
Qed.

Lemma divide_pow10_mul d1 d2 k1 k2 :
  (d1 | 10 ^ Z.of_nat k1)%Z -> (d2 | 10 ^ Z.of_nat k2)%Z ->
  (d1 * d2 | 10 ^ Z.of_nat (k1 + k2))%Z.
Proof.
  intros [c1 H1] [c2 H2]. exists (c1 * c2)%Z.
  rewrite Nat2Z.inj_add, Z.pow_add_r, H1, H2 by lia. ring.
Qed.

Lemma printable_sub a b : printable a -> printable b -> printable (a - b)%js.
Proof.
  intros [_ [k1 H1]] [_ [k2 H2]]. unfold sub, Qminus'.
  apply (printable_Qred _ (k1 + k2)).
  destruct a as [na da], b as [nb db]. simpl in *.
  rewrite Pos2Z.inj_mul. now apply divide_pow10_mul.
Qed.

Lemma printable_add a b : printable a -> printable b -> printable (a + b)%js.
Proof.
  intros [_ [k1 H1]] [_ [k2 H2]]. unfold add, Qplus'.
  apply (printable_Qred _ (k1 + k2)).
  destruct a as [na da], b as [nb db]. simpl in *.
  rewrite Pos2Z.inj_mul. now apply divide_pow10_mul.
Qed.

Lemma printable_mul a b : printable a -> printable b -> printable (a * b)%js.
Proof.
  intros [_ [k1 H1]] [_ [k2 H2]]. unfold mul, Qmult'.
  apply (printable_Qred _ (k1 + k2)).
  destruct a as [na da], b as [nb db]. simpl in *.
  rewrite Pos2Z.inj_mul. now apply divide_pow10_mul.
Qed.

Lemma printable_Math_round a : printable (Math_round a).
Proof. apply printable_of_Z. Qed.

Lemma printable_Math_min a b :
  printable a -> printable b -> printable (Math_min a b).
Proof. intros Ha Hb. unfold Math_min. now destruct (Qle_bool a b). Qed.

Lemma printable_Math_max a b :
  printable a -> printable b -> printable (Math_max a b).
Proof. intros Ha Hb. unfold Math_max. now destruct (Qle_bool a b). Qed.

Create HintDb printable.

#[local] Hint Resolve printable_sub printable_add printable_mul
  printable_Math_round printable_Math_min printable_Math_max
  printable_of_Z : printable.

Lemma printable_literal z : printable (inject_Z z).
Proof. apply printable_of_Z. Qed.

#[local] Hint Resolve printable_literal : printable.

Lemma drag_item_printable rect x0 y0 b dragged it :
  rect_printable rect -> printable x0 -> printable y0 ->
  item_printable it -> item_printable (drag_item rect x0 y0 b dragged it).
Proof.
  intros (Hl & Ht & Hw & Hh) Hx Hy (Hix & Hiy & Hic). unfold drag_item.
  destruct (negb (String.eqb (id it) dragged));
    [exact (conj Hix (conj Hiy Hic)) |].
  assert (H0 : printable 0) by apply (printable_literal 0).
  assert (H20 : printable 20) by apply (printable_literal 20).
  assert (H40 : printable 40) by apply (printable_literal 40).
  assert (H60 : printable 60) by apply (printable_literal 60).
  assert (H120 : printable 120) by apply (printable_literal 120).
  assert (Hg : printable gridSize) by apply (printable_literal 24).
  unfold item_printable. split; [| split]; simpl; [| | assumption];
    destruct (snap (settings b)); destruct (ItemType_eqb (type it) label);
    auto 8 with printable.
Qed.

(** A drag commit keeps a printable board printable. *)
Lemma onDragEnd_printable boardRef_current dragged info b :
  match boardRef_current with
  | Some rect => rect_printable rect
  | None => True
  end ->
  printable (point_x (point info)) -> printable (point_y (point info)) ->
  board_printable b ->
  board_printable (onDragEnd boardRef_current dragged info b).
Proof.
  intros Hr Hx Hy Hb. destruct boardRef_current as [rect |]; [| exact Hb].
  unfold board_printable, onDragEnd. simpl. apply Forall_map.
  eapply Forall_impl; [| exact Hb]. intros it Hit.
  destruct Hr as (Hl & Ht & Hw & Hh).
  apply drag_item_printable; auto with printable.
  exact (conj Hl (conj Ht (conj Hw Hh))).
Qed.

(** So does [addMagnets], when the selected colour is printable. *)
Lemma addMagnets_printable uid s :
  printable (selectedColor s) -> board_printable (board s) ->
  board_printable (board (addMagnets uid s)).
Proof.
  intros Hc Hb. unfold addMagnets.
  destruct (negb (Boolean_string (trim (pasteText s)))); [exact Hb |].
  unfold board_printable. simpl. apply Forall_app. split; [exact Hb |].
  unfold new_magnets, mapi. generalize 0%nat.
  induction (parseNames (pasteText s)) as [| n ns IH]; intros k; simpl;
    constructor; [| apply IH].
  simpl. unfold index_rem, index_div_floor, Math_floor, baseX, baseY.
  split; [| split]; [| | exact Hc];
    apply printable_add;
    try apply (printable_literal 24);
    apply printable_mul;
    first [apply printable_of_Z | apply (printable_literal 140)
          | apply (printable_literal 60)].
Qed.

(** ** Export and import of boards *)

Ltac distinct_keys :=
  repeat (constructor; [simpl; intuition discriminate |]); constructor.

Lemma wf_value_of_Item it : item_printable it -> wf_value (value_of_Item it).
Proof.
  intros (Hx & Hy & Hc). constructor; [distinct_keys |].
  repeat (constructor; [simpl; constructor; assumption || idtac |]);
    try constructor.
Qed.

Lemma wf_value_of_Board b : board_printable b -> wf_value (value_of_Board b).
Proof.
  intros Hb. constructor; [distinct_keys |].
  constructor; [| constructor; [| constructor]]; simpl.
  - constructor. apply Forall_map.
    eapply Forall_impl; [| exact Hb]. intros it. apply wf_value_of_Item.
  - constructor; [distinct_keys |]. repeat constructor.
Qed.

Lemma type_string_inj t t' : type_string t = type_string t' -> t = t'.
Proof. destruct t, t'; simpl; intros H; try reflexivity; discriminate. Qed.

Lemma value_of_Item_inj it it' : value_of_Item it = value_of_Item it' -> it = it'.
Proof.
  destruct it, it'. unfold value_of_Item. simpl.
  intros [= -> Ht -> -> -> ->]. apply type_string_inj in Ht. now subst.
Qed.

Lemma map_injective {A B : Type} (f : A -> B) :
  (forall a a', f a = f a' -> a = a') ->
  forall l l', map f l = map f l' -> l = l'.
Proof.
  intros Hf. induction l as [| a l IH]; intros [| a' l']; simpl; intros H;
    try discriminate; [reflexivity |].
  injection H as H1 H2. f_equal; auto.
Qed.

Lemma value_of_Board_inj b b' : value_of_Board b = value_of_Board b' -> b = b'.
Proof.
  destruct b as [l [g s k]], b' as [l' [g' s' k']]. unfold value_of_Board.
  simpl. intros [= Hl -> -> ->]. f_equal.
  exact (map_injective value_of_Item value_of_Item_inj l l' Hl).
Qed.

Lemma handleImport_parsed cur text json :
  JSON.parse text = Some json ->
  handleImport (Some text) cur =
  if truthy (optional_get json "items") && truthy (optional_get json "settings")
  then (json, None)
  else (cur, Some "Invalid file format."%string).
Proof. intros H. unfold handleImport. rewrite H. reflexivity. Qed.


Lemma team_board_printable : board_printable team_board.
Proof.
  repeat constructor;
    first [ apply (printable_by_scale _ 0); reflexivity
          | apply (printable_by_scale _ 1); reflexivity
          | apply (printable_by_scale _ 2); reflexivity ].
Qed.


(** *** Rejected documents *)

Lemma truthy_false_iff o : truthy o = false <-> falsy o.
Proof.
  unfold falsy. split.
  - destruct o as [[| [] | n | s | l | ms] |]; simpl; intros H;
      try discriminate; auto.
    + right; right; right; left. exists n. split; [reflexivity |].
      apply Qeq_bool_iff. now destruct (Qeq_bool n 0).
    + right; right; right; right.
      unfold Boolean_string in H.
      destruct (String.eqb_spec s ""); [now subst | discriminate].
  - intros [-> | [-> | [-> | [(n & -> & Hn) | ->]]]]; try reflexivity.
    simpl. apply Qeq_bool_iff in Hn. now rewrite Hn.
Qed.

(** C4 (as stated, refuted).  The text [{"items":[],"settings":null}]
    parses, has both top-level keys, and is still rejected with
    "Invalid file format.": rejection is not confined to documents that
    lack a key. *)
Lemma C4_missing_keys_counterexample :
  let json := JObj [("items"%string, JArr []); ("settings"%string, Null)] in
  (JSON.parse falsy_settings_text = Some json /\
   has_key json "items" = true /\ has_key json "settings" = true /\
   handleImport (Some falsy_settings_text) (value_of_Board demo_board)
   = (value_of_Board demo_board, Some "Invalid file format."%string)) /\
  ~ rejects_exactly_missing_keys.
Proof.
  split; [repeat split |].
  intros H.
  specialize (H Null falsy_settings_text
                (JObj [("items"%string, JArr []); ("settings"%string, Null)])
                eq_refl).
  destruct H as [H _]. specialize (H eq_refl). discriminate H.
Qed.

(** C4 (amended).  Importing [{not json] alerts "Could not parse file."
    (the ParseError) and importing [{}] alerts "Invalid file format." (the
    SchemaError).  A text that does not parse gets the first alert; a
    parsed document is rejected exactly when its top-level [items] or
    [settings] property is missing or holds a falsy value ([null],
    [false], [0] or the empty string).  Whenever an alert is shown the
    board is left as it was. *)
Theorem C4_import_rejection (cur : value) :
  handleImport (Some "{not json"%string) cur
  = (cur, Some "Could not parse file."%string) /\
  handleImport (Some "{}"%string) cur
  = (cur, Some "Invalid file format."%string) /\
  (forall text, JSON.parse text = None ->
     handleImport (Some text) cur = (cur, Some "Could not parse file."%string)) /\
  (forall text json, JSON.parse text = Some json ->
     (snd (handleImport (Some text) cur) = Some "Invalid file format."%string
      <-> falsy (optional_get json "items") \/
          falsy (optional_get json "settings"))) /\
  (forall file alert, snd (handleImport file cur) = Some alert ->
     fst (handleImport file cur) = cur).
Proof.
  split; [reflexivity |]. split; [reflexivity |]. split; [| split].
  - intros text Hp. unfold handleImport. rewrite Hp. reflexivity.
  - intros text json Hp. rewrite (handleImport_parsed cur text json Hp).
    rewrite <- !truthy_false_iff.
    destruct (truthy (optional_get json "items"));
      destruct (truthy (optional_get json "settings")); simpl;
      intuition discriminate.
  - intros [text |] alert; simpl; [| discriminate].
    destruct (JSON.parse text) as [json |]; [| reflexivity].
    destruct (truthy (optional_get json "items") &&
              truthy (optional_get json "settings")); simpl;
      [discriminate | reflexivity].
Qed.

Lemma C4_import_rejection_witness :
  snd (handleImport (Some falsy_settings_text) (value_of_Board demo_board))
  = Some "Invalid file format."%string /\
  fst (handleImport (Some falsy_settings_text) (value_of_Board demo_board))
  = value_of_Board demo_board.
Proof.
  destruct (C4_import_rejection (value_of_Board demo_board))
    as (_ & _ & _ & Hrej & Hkeep).
  split.
  - apply (Hrej falsy_settings_text
             (JObj [("items"%string, JArr []); ("settings"%string, Null)])
             eq_refl).
    right. right. left. reflexivity.
  - apply (Hkeep (Some falsy_settings_text) "Invalid file format."%string).
    reflexivity.
Defined.

(** ** More on drag commits *)

Lemma map_id_on {A : Type} (f : A -> A) l :
  (forall a, In a l -> f a = a) -> map f l = l.
Proof.
  induction l as [| a l IH]; intros H; simpl; [reflexivity |].
  rewrite H by (left; reflexivity). f_equal. apply IH.
  intros a' Ha'. apply H. right. exact Ha'.
Qed.

Lemma Board_eta b : {| items := items b; settings := settings b |} = b.
Proof. destruct b. reflexivity. Qed.

Lemma drag_items_unknown rect x0 y0 b dragged l :
  (forall it, In it l -> id it <> dragged) ->
  map (drag_item rect x0 y0 b dragged) l = l.
Proof.
  intros H. apply map_id_on. intros it Hit. apply drag_item_other. now apply H.
Qed.

(** Releasing an item whose id is not on the board changes nothing. *)
Theorem onDragEnd_unknown_id boardRef_current dragged info b :
  (forall it, In it (items b) -> id it <> dragged) ->
  onDragEnd boardRef_current dragged info b = b.
Proof.
  intros H. destruct boardRef_current as [rect |]; [| reflexivity].
  unfold onDragEnd. rewrite drag_items_unknown by exact H. apply Board_eta.
Qed.

Lemma onDragEnd_unknown_id_witness :
  onDragEnd (Some demo_rect) "zz" demo_info demo_board = demo_board.
Proof.
  apply onDragEnd_unknown_id.
  intros it [<- | []]. discriminate.
Defined.

(** The callback looks at the id and the type of the item only, never at
    its position. *)
Lemma drag_item_twice rect x0 y0 b b' dragged it :
  settings b' = settings b ->
  drag_item rect x0 y0 b' dragged (drag_item rect x0 y0 b dragged it)
  = drag_item rect x0 y0 b dragged it.
Proof.
  intros Hs. unfold drag_item. rewrite Hs.
  destruct (String.eqb (id it) dragged) eqn:E; simpl; rewrite E; reflexivity.
Qed.

(** A commit is absolute: committing the same release a second time gives
    the board of the first commit. *)
Theorem onDragEnd_idempotent boardRef_current dragged info b :
  onDragEnd boardRef_current dragged info
    (onDragEnd boardRef_current dragged info b)
  = onDragEnd boardRef_current dragged info b.
Proof.
  destruct boardRef_current as [rect |]; [| reflexivity].
  unfold onDragEnd. simpl. f_equal. rewrite map_map.
  apply map_ext. intros it. now apply drag_item_twice.
Qed.

Lemma drag_item_swap r1 p1 q1 r2 p2 q2 b1 b2 b1' b2' d1 d2 it :
  d1 <> d2 ->
  settings b1' = settings b1 -> settings b2' = settings b2 ->
  drag_item r1 p1 q1 b1' d1 (drag_item r2 p2 q2 b2 d2 it)
  = drag_item r2 p2 q2 b2' d2 (drag_item r1 p1 q1 b1 d1 it).
Proof.
  intros Hd H1 H2. unfold drag_item. rewrite H1, H2.
  destruct (String.eqb_spec (id it) d1) as [E1 | E1];
    destruct (String.eqb_spec (id it) d2) as [E2 | E2]; simpl;
    try (subst; contradiction).
  - destruct (String.eqb_spec (id it) d2); [contradiction |].
    destruct (String.eqb_spec (id it) d1); [| contradiction]. reflexivity.
  - destruct (String.eqb_spec (id it) d2); [| contradiction].
    destruct (String.eqb_spec (id it) d1); [contradiction |]. reflexivity.
  - destruct (String.eqb_spec (id it) d2); [contradiction |].
    destruct (String.eqb_spec (id it) d1); [contradiction |]. reflexivity.
Qed.



(** Rounding to the grid moves a coordinate by at most half a cell. *)
Lemma snap_near a :
  let s := (Math_round (a / gridSize) * gridSize)%js in
  a - 12 < s /\ s <= a + 12.
Proof.
  intros s. subst s. rewrite mul_correct.
  unfold Math_round, of_Z, gridSize.
  assert (Ez : (a / 24)%js + (1 # 2) == a * (1 # 24) + (1 # 2))
    by (rewrite div_correct; reflexivity).
  pose proof (Qfloor_le ((a / 24)%js + (1 # 2))) as Hle.
  pose proof (Qlt_floor ((a / 24)%js + (1 # 2))) as Hlt.
  rewrite inject_Z_plus in Hlt. change (inject_Z 1) with 1 in Hlt.
  set (k := inject_Z (Qfloor ((a / 24)%js + (1 # 2)))) in *. clearbody k.
  set (z := ((a / 24)%js + (1 # 2))%Q) in *. clearbody z.
  split; lra.
Qed.

Section Placement.

Variables (rect : DOMRect) (info : PanInfo) (b : Board) (i : nat) (it : Item).
Hypothesis Hit : nth_error (items b) i = Some it.

Let b' := onDragEnd (Some rect) (id it) info b.

Lemma placed_item :
  nth_error (items b') i =
  Some (drag_item rect (point_x (point info) - left rect)%js
                  (point_y (point info) - top rect)%js b (id it) it).
Proof. unfold b'. rewrite onDragEnd_nth, Hit. reflexivity. Qed.



End Placement.



(** ** Editing, deleting, settings *)

(** Editing the text of an item changes the text of the items with that id
    and nothing else: positions, colours, kinds, ids, the other items, the
    order and the settings stay. *)
Theorem onChangeText_frame it_id t b :
  let b' := onChangeText it_id t b in
  settings b' = settings b /\
  List.length (items b') = List.length (items b) /\
  forall i it, nth_error (items b) i = Some it ->
    exists it', nth_error (items b') i = Some it' /\
      id it' = id it /\ type it' = type it /\ x it' = x it /\ y it' = y it /\
      color it' = color it /\
      (id it = it_id -> text it' = t) /\ (id it <> it_id -> it' = it).
Proof.
  simpl. split; [reflexivity |]. split; [apply length_map |].
  intros i it Hi. rewrite nth_error_map, Hi. simpl. eexists.
  split; [reflexivity |].
  destruct (String.eqb_spec (id it) it_id) as [E | E]; simpl;
    repeat split; auto; intros; try reflexivity; contradiction.
Qed.

Lemma onChangeText_frame_witness :
  exists it', nth_error (items (onChangeText "a" "Zed" demo_board)) 0 = Some it' /\
    id it' = id demo_item /\ type it' = type demo_item /\
    x it' = x demo_item /\ y it' = y demo_item /\ color it' = color demo_item /\
    (id demo_item = "a"%string -> text it' = "Zed"%string) /\
    (id demo_item <> "a"%string -> it' = demo_item).
Proof.
  destruct (onChangeText_frame "a" "Zed" demo_board) as (_ & _ & H).
  exact (H 0%nat demo_item eq_refl).
Defined.

(** Editing and dragging commute, whichever items they address: a drag
    never reads the text and an edit never reads the position. *)
Theorem onChangeText_onDragEnd_commute it_id t boardRef_current dragged info b :
  onChangeText it_id t (onDragEnd boardRef_current dragged info b)
  = onDragEnd boardRef_current dragged info (onChangeText it_id t b).
Proof.
  destruct boardRef_current as [rect |]; [| reflexivity].
  unfold onChangeText, onDragEnd. simpl. f_equal. rewrite !map_map.
  apply map_ext. intros it. unfold drag_item. simpl.
  destruct (String.eqb (id it) dragged) eqn:Ed;
    destruct (String.eqb (id it) it_id) eqn:Ei;
    simpl; rewrite ?Ed, ?Ei; reflexivity.
Qed.

Lemma filter_all {A : Type} (f : A -> bool) l :
  (forall a, In a l -> f a = true) -> filter f l = l.
Proof.
  induction l as [| a l IH]; intros H; simpl; [reflexivity |].
  rewrite H by (left; reflexivity). f_equal. apply IH.
  intros a' Ha'. apply H. right. exact Ha'.
Qed.

(** Deleting keeps exactly the items with another id, in their order, and
    the settings; deleting again, or deleting an id that is not there,
    changes nothing. *)
Theorem onDelete_spec it_id b :
  let b' := onDelete it_id b in
  settings b' = settings b /\
  (forall it, In it (items b') <-> In it (items b) /\ id it <> it_id) /\
  (List.length (items b') <= List.length (items b))%nat /\
  onDelete it_id b' = b' /\
  ((forall it, In it (items b) -> id it <> it_id) -> b' = b).
Proof.
  simpl. split; [reflexivity |]. split; [| split; [| split]].
  - intros it. rewrite filter_In.
    destruct (String.eqb_spec (id it) it_id); simpl; intuition congruence.
  - apply filter_length_le.
  - unfold onDelete. simpl. f_equal.
    induction (items b) as [| a l IH]; simpl; [reflexivity |].
    destruct (String.eqb (id a) it_id) eqn:E; simpl; [exact IH |].
    rewrite E. simpl. f_equal. exact IH.
  - intros H. unfold onDelete. rewrite filter_all; [apply Board_eta |].
    intros it Hit. apply negb_true_iff, String.eqb_neq. now apply H.
Qed.

Lemma onDelete_spec_witness :
  onDelete "zz" demo_board = demo_board.
Proof.
  destruct (onDelete_spec "zz" demo_board) as (_ & _ & _ & _ & H).
  apply H. intros it [<- | []]. discriminate.
Defined.

(** An item deleted while it is being dragged is not brought back by the
    release: the commit finds no item of that id. *)
Theorem onDragEnd_after_onDelete boardRef_current it_id info b :
  onDragEnd boardRef_current it_id info (onDelete it_id b) = onDelete it_id b.
Proof.
  destruct boardRef_current as [rect |]; [| reflexivity].
  unfold onDragEnd. rewrite drag_items_unknown; [apply Board_eta |].
  intros it Hit. simpl in Hit. apply filter_In in Hit as [_ Hne].
  apply negb_true_iff in Hne. now apply String.eqb_neq.
Qed.

(** [toggle] flips the one setting it is given and leaves the other two
    and the items; toggling twice restores the board; toggles of different
    keys commute. *)
Theorem toggle_spec key b :
  get_setting key (settings (toggle key b)) = negb (get_setting key (settings b)) /\
  (forall key', key' <> key ->
     get_setting key' (settings (toggle key b)) = get_setting key' (settings b)) /\
  items (toggle key b) = items b /\
  toggle key (toggle key b) = b /\
  (forall key', toggle key (toggle key' b) = toggle key' (toggle key b)).
Proof.
  destruct b as [l [g s k]].
  split; [destruct key; reflexivity |].
  split; [intros key' H; destruct key, key'; try reflexivity; contradiction |].
  split; [reflexivity |].
  split; [destruct key; unfold toggle; simpl; rewrite negb_involutive;
          reflexivity |].
  intros key'. destruct key, key'; reflexivity.
Qed.

Lemma toggle_spec_witness :
  get_setting key_grid (settings (toggle key_snap demo_board))
  = get_setting key_grid (settings demo_board).
Proof.
  destruct (toggle_spec key_snap demo_board) as (_ & H & _).
  apply H. discriminate.
Defined.

Lemma printBoard_locked b : locked (settings (fst (printBoard b))) = true.
Proof.
  unfold printBoard. simpl.
  destruct (locked (settings b)) eqn:E; simpl; [exact E |].
  rewrite E. reflexivity.
Qed.

(** [printBoard] leaves the board locked, with the same items, grid and
    snap settings; on a locked board it changes nothing; and no drag
    gesture made after it moves an item, so what is printed 50 ms later
    is the board as it was when Print was pressed. *)
Theorem printBoard_spec b boardRef_current gestures :
  let b' := fst (printBoard b) in
  locked (settings b') = true /\
  items b' = items b /\
  grid (settings b') = grid (settings b) /\
  snap (settings b') = snap (settings b) /\
  (locked (settings b) = true -> b' = b) /\
  fst (printBoard b') = b' /\
  fold_left (drag_gesture boardRef_current) gestures b' = b' /\
  snd (printBoard b) = 50%nat.
Proof.
  cbv zeta. split; [apply printBoard_locked |].
  assert (Hfix : forall c, locked (settings c) = true -> fst (printBoard c) = c).
  { intros c Hc. unfold printBoard. simpl. rewrite Hc. reflexivity. }
  split; [| split; [| split; [| split; [| split; [| split]]]]].
  - unfold printBoard. simpl. destruct (locked (settings b)); reflexivity.
  - unfold printBoard. simpl. destruct (locked (settings b)); reflexivity.
  - unfold printBoard. simpl. destruct (locked (settings b)); reflexivity.
  - apply Hfix.
  - apply Hfix, printBoard_locked.
  - induction gestures as [| g gs IH]; simpl; [reflexivity |].
    rewrite drag_gesture_locked by apply printBoard_locked. exact IH.
  - reflexivity.
Qed.

Lemma printBoard_spec_witness :
  fst (printBoard locked_board) = locked_board.
Proof.
  destruct (printBoard_spec locked_board None []) as (_ & _ & _ & _ & H & _).
  apply H. reflexivity.
Defined.

(** [clearBoard] does nothing when the user declines; when the user
    confirms, the board has no item left to render and the default
    settings, so a locked board comes back unlocked. *)
Theorem clearBoard_spec b boardRef_current :
  clearBoard false b = b /\
  items (clearBoard true b) = [] /\
  settings (clearBoard true b)
  = {| grid := true; snap := true; locked := false |} /\
  render_items boardRef_current (clearBoard true b) = [] /\
  clearBoard true (clearBoard true b) = clearBoard true b.
Proof. repeat split. Qed.

(** ** Pasting names and adding labels *)

Lemma Forall_nth_error {A : Type} (P : A -> Prop) l :
  (forall i a, nth_error l i = Some a -> P a) -> Forall P l.
Proof.
  intros H. apply Forall_forall. intros a Ha.
  apply In_nth_error in Ha as [i Hi]. exact (H i a Hi).
Qed.

Lemma new_magnets_inv uid first color0 names i it :
  nth_error (new_magnets uid first color0 names) i = Some it ->
  exists n, nth_error names i = Some n /\
    it = {| id := uid (first + i)%nat; type := magnet; text := n;
            x := of_Z (24 + (Z.of_nat i mod 4) * 140);
            y := of_Z (24 + (Z.of_nat i / 4) * 60);
            color := color0 |}.
Proof.
  intros H. destruct (nth_error names i) as [n |] eqn:E.
  - exists n. split; [reflexivity |].
    rewrite (new_magnets_nth uid first color0 names i n E) in H.
    now injection H as <-.
  - unfold new_magnets, mapi in H. rewrite mapi_from_nth, E in H. discriminate.
Qed.

Lemma new_magnets_texts uid first color0 names :
  map text (new_magnets uid first color0 names) = names.
Proof.
  unfold new_magnets, mapi. generalize 0%nat.
  induction names as [| n ns IH]; intros k; simpl; [reflexivity |].
  f_equal. apply IH.
Qed.

Lemma addMagnets_items uid s :
  items (board (addMagnets uid s))
  = items (board s) ++
    new_magnets uid (draws s) (selectedColor s) (parseNames (pasteText s)) /\
  selectedColor (addMagnets uid s) = selectedColor s.
Proof.
  unfold addMagnets.
  destruct (Boolean_string (trim (pasteText s))) eqn:E; simpl;
    [split; reflexivity |].
  rewrite parseNames_blank; [simpl; rewrite app_nil_r; split; reflexivity |].
  apply trim_empty_blank.
  unfold Boolean_string in E. apply negb_false_iff in E.
  now apply String.eqb_eq.
Qed.

Lemma new_magnets_all (P : Item -> Prop) uid first color0 names :
  (forall i n, nth_error names i = Some n ->
     P {| id := uid (first + i)%nat; type := magnet; text := n;
          x := of_Z (24 + (Z.of_nat i mod 4) * 140);
          y := of_Z (24 + (Z.of_nat i / 4) * 60);
          color := color0 |}) ->
  Forall P (new_magnets uid first color0 names).
Proof.
  intros H. apply Forall_nth_error. intros i it Hi.
  apply new_magnets_inv in Hi as (n & Hn & ->). now apply H.
Qed.

(** [addMagnets] keeps the items that are there, in place, and appends one
    magnet per parsed name, in the order of the names and in the selected
    colour; the settings stay, and the text field is emptied unless it was
    blank. *)
Theorem addMagnets_appends uid s :
  let s' := addMagnets uid s in
  exists new,
    items (board s') = items (board s) ++ new /\
    map text new = parseNames (pasteText s) /\
    Forall (fun it => type it = magnet /\ color it = selectedColor s) new /\
    settings (board s') = settings (board s) /\
    selectedColor s' = selectedColor s /\
    draws s' = (draws s + List.length new)%nat /\
    (Boolean_string (trim (pasteText s)) = true -> pasteText s' = ""%string).
Proof.
  unfold addMagnets.
  destruct (Boolean_string (trim (pasteText s))) eqn:E; simpl.
  - exists (new_magnets uid (draws s) (selectedColor s) (parseNames (pasteText s))).
    split; [reflexivity |]. split; [apply new_magnets_texts |].
    split; [| repeat split].
    + apply Forall_nth_error. intros i it Hi.
      apply new_magnets_inv in Hi as (n & _ & ->). split; reflexivity.
    + f_equal. rewrite <- (new_magnets_texts uid (draws s) (selectedColor s)
                             (parseNames (pasteText s))) at 1.
      now rewrite length_map.
  - exists []. rewrite app_nil_r.
    assert (Hb : parseNames (pasteText s) = []).
    { apply parseNames_blank, trim_empty_blank.
      unfold Boolean_string in E. apply negb_false_iff in E.
      now apply String.eqb_eq. }
    rewrite Hb. repeat split; auto. discriminate.
Qed.

Lemma addMagnets_appends_witness :
  pasteText (addMagnets demo_uid roster_app) = ""%string.
Proof.
  destruct (addMagnets_appends demo_uid roster_app)
    as (new & _ & _ & _ & _ & _ & _ & H).
  apply H. reflexivity.
Defined.

(** The magnets of one paste never share a position: two names of the same
    paste get different coordinates. *)
Theorem new_magnets_distinct uid first color0 names i j it1 it2 :
  nth_error (new_magnets uid first color0 names) i = Some it1 ->
  nth_error (new_magnets uid first color0 names) j = Some it2 ->
  i <> j ->
  ~ (x it1 == x it2 /\ y it1 == y it2).
Proof.
  intros H1 H2 Hij [Hx Hy].
  apply new_magnets_inv in H1 as (n1 & _ & ->).
  apply new_magnets_inv in H2 as (n2 & _ & ->).
  cbn [x y] in Hx, Hy. unfold of_Z in Hx, Hy.
  rewrite inject_Z_injective in Hx, Hy.
  apply Hij.
  pose proof (Z.div_mod (Z.of_nat i) 4 ltac:(lia)) as Di.
  pose proof (Z.div_mod (Z.of_nat j) 4 ltac:(lia)) as Dj.
  lia.
Qed.

Lemma new_magnets_distinct_witness :
  ~ (x (mkItem "a" magnet "Alice" 24 24 1) == x (mkItem "b" magnet "Bob" 164 24 1) /\
     y (mkItem "a" magnet "Alice" 24 24 1) == y (mkItem "b" magnet "Bob" 164 24 1)).
Proof.
  apply (new_magnets_distinct demo_uid 0 1 (parseNames roster) 0 1);
    [reflexivity | reflexivity | discriminate].
Defined.

(** *** Names on either side of a separator *)

Lemma names_from_after_sep s : names_from true [] s = names_from false [] s.
Proof.
  destruct s as [| c s]; [reflexivity |].
  unfold names_from. simpl. destruct (is_sep c); reflexivity.
Qed.

Lemma names_from_app c s2 : is_sep c = true -> forall s1 in_sep cur,
  (in_sep = true -> cur = []) ->
  names_from in_sep cur (s1 ++ c :: s2)
  = names_from in_sep cur s1 ++ names_from false [] s2.
Proof.
  intros Hc. induction s1 as [| a s1 IH]; intros in_sep cur Hinv.
  - simpl app. unfold names_from at 1 2. simpl split_from. rewrite Hc.
    destruct in_sep.
    + rewrite (Hinv eq_refl). simpl. apply names_from_after_sep.
    + cbn [map filter]. fold (names_from true [] s2).
      rewrite names_from_after_sep.
      destruct (Boolean_string (trim (string_of_list_ascii (rev cur))));
        reflexivity.
  - simpl app. unfold names_from at 1 2. simpl split_from.
    destruct (is_sep a).
    + destruct in_sep.
      * apply IH. trivial.
      * cbn [map filter].
        fold (names_from true [] (s1 ++ c :: s2)). fold (names_from true [] s1).
        rewrite (IH true []) by trivial.
        destruct (Boolean_string (trim (string_of_list_ascii (rev cur))));
          reflexivity.
    + apply IH. discriminate.
Qed.

Lemma list_ascii_of_string_app s1 s2 :
  list_ascii_of_string (s1 ++ s2) =
  (list_ascii_of_string s1 ++ list_ascii_of_string s2)%list.
Proof. induction s1 as [| c s1 IH]; simpl; [reflexivity | now rewrite IH]. Qed.

(** [parseNames] reads the two sides of a newline, comma or semicolon
    independently: the names of the joined text are the names of the left
    part followed by those of the right part. *)
Theorem parseNames_join c s1 s2 :
  is_sep c = true ->
  parseNames (s1 ++ sep_text c ++ s2) = (parseNames s1 ++ parseNames s2)%list.
Proof.
  intros Hc. unfold parseNames, split_seps.
  rewrite !list_ascii_of_string_app. simpl app.
  apply (names_from_app c (list_ascii_of_string s2) Hc
           (list_ascii_of_string s1) false []).
  discriminate.
Qed.

Lemma parseNames_join_witness :
  parseNames ("Alice, Bob" ++ sep_text ";" ++ " Carol")
  = (parseNames "Alice, Bob" ++ parseNames " Carol")%list.
Proof. apply parseNames_join. reflexivity. Defined.

(** *** Labels *)

Section Labels.

Variables (uid : nat -> string) (random : nat -> number).
Hypothesis random_range : forall n, 0 <= random n /\ random n < 1.


End Labels.


(** ** What every session keeps true *)

Lemma Math_max_0_nonneg v : 0 <= Math_max 0 v.
Proof.
  destruct (Math_max_cases 0 v) as [[H ->] | [H ->]]; [exact H | apply Qle_refl].
Qed.

Lemma drag_item_keeps rect x0 y0 b dragged it :
  palette_index (color it) /\ nonneg_item it ->
  palette_index (color (drag_item rect x0 y0 b dragged it)) /\
  nonneg_item (drag_item rect x0 y0 b dragged it).
Proof.
  intros [Hc Hn]. unfold drag_item.
  destruct (negb (String.eqb (id it) dragged)); [now split |].
  split; [exact Hc |]. split; simpl; apply Math_max_0_nonneg.
Qed.

Lemma onDragEnd_keeps ref dragged info b :
  Forall (fun it => palette_index (color it) /\ nonneg_item it) (items b) ->
  Forall (fun it => palette_index (color it) /\ nonneg_item it)
         (items (onDragEnd ref dragged info b)).
Proof.
  intros H. destruct ref as [rect |]; [| exact H].
  simpl. apply Forall_map. eapply Forall_impl; [| exact H].
  intros it. apply drag_item_keeps.
Qed.

Lemma drag_gesture_keeps ref b g :
  Forall (fun it => palette_index (color it) /\ nonneg_item it) (items b) ->
  Forall (fun it => palette_index (color it) /\ nonneg_item it)
         (items (drag_gesture ref b g)).
Proof.
  intros H. unfold drag_gesture, render_items. rewrite nth_error_map.
  destruct (nth_error (items b) (fst g)) as [it |]; simpl; [| exact H].
  unfold pan_release. simpl.
  destruct (negb (locked (settings b))); [| exact H].
  now apply onDragEnd_keeps.
Qed.

Lemma palette_index_swatch i c :
  nth_error COLORS i = Some c -> palette_index (of_Z (Z.of_nat i)).
Proof.
  intros H. exists i. split; [| reflexivity].
  apply (nth_error_Some COLORS i). rewrite H. discriminate.
Qed.

Lemma palette_index_3 : palette_index 3.
Proof. exists 3%nat. split; [lia | reflexivity]. Qed.

Lemma initial_inv : session_inv initial_app.
Proof.
  split; [| constructor]. exists 1%nat. split; [lia | reflexivity].
Qed.

Section Sessions.

Variables (uid : nat -> string) (random : nat -> number).
Hypothesis random_nonneg : forall n, 0 <= random n.

Lemma step_keeps s e : session_inv s -> session_inv (step uid random s e).
Proof.
  intros [Hsel Hitems]. destruct e; simpl.
  - split; assumption.
  - destruct (nth_error COLORS i) as [c |] eqn:E; [| now split].
    split; [eapply palette_index_swatch; eassumption | exact Hitems].
  - destruct (addMagnets_items uid s) as (Ei & Hs).
    split; [now rewrite Hs |].
    rewrite Ei. apply Forall_app. split; [exact Hitems |].
    apply new_magnets_all. intros i n _. cbn [color].
    split; [exact Hsel |]. unfold nonneg_item, of_Z. cbn [x y].
    pose proof (Z.mod_pos_bound (Z.of_nat i) 4 ltac:(lia)).
    pose proof (Z.div_pos (Z.of_nat i) 4 ltac:(lia) ltac:(lia)).
    split; change 0 with (inject_Z 0); rewrite <- Zle_Qle; lia.
  - split; [exact Hsel |]. simpl. apply Forall_app. split; [exact Hitems |].
    constructor; [| constructor]. simpl. split; [apply palette_index_3 |].
    pose proof (random_nonneg (draws s + 1)).
    pose proof (random_nonneg (draws s + 2)).
    unfold nonneg_item. simpl.
    unfold add, mul, Qplus', Qmult'. rewrite !Qred_correct. split; lra.
  - split; assumption.
  - split; [exact Hsel |]. simpl.
    destruct (negb (locked (settings (board s)))); exact Hitems.
  - split; [exact Hsel |]. simpl. destruct confirmed; [constructor | exact Hitems].
  - split; [exact Hsel |]. simpl. now apply drag_gesture_keeps.
  - destruct (nth_error (items (board s)) i) as [it |]; [| now split].
    split; [exact Hsel |]. simpl. apply Forall_map.
    eapply Forall_impl; [| exact Hitems].
    intros a Ha. destruct (String.eqb (id a) (id it)); exact Ha.
  - destruct (nth_error (items (board s)) i) as [it |]; [| now split].
    destruct (ItemType_eqb (type it) label); [now split |].
    split; [exact Hsel |]. simpl.
    apply Forall_forall. intros a Ha. apply filter_In in Ha as [Ha _].
    rewrite Forall_forall in Hitems. now apply Hitems.
Qed.

(** Whatever the user does from the start of a session (pasting, picking
    colours, adding, dragging, editing, deleting, toggling, printing,
    clearing; import and reload apart), every item keeps coordinates that
    are not negative and a colour that indexes the palette, so that
    [Magnet] never falls back to entry 0. *)
Theorem session_invariant (es : list Event) :
  let s := run uid random initial_app es in
  Forall (fun it => 0 <= x it /\ 0 <= y it /\
                    exists c, array_get COLORS (color it) = Some c)
         (items (board s)).
Proof.
  cbv zeta.
  assert (Hinv : session_inv (run uid random initial_app es)).
  { unfold run. generalize initial_app initial_inv.
    induction es as [| e es IH]; intros s Hs; simpl; [exact Hs |].
    apply IH. now apply step_keeps. }
  destruct Hinv as [_ H]. eapply Forall_impl; [| exact H].
  intros it [(i & Hi & Ec) [Hx Hy]]. split; [exact Hx |]. split; [exact Hy |].
  rewrite Ec, array_get_of_Z.
  destruct (Z.leb_spec 0 (Z.of_nat i)); [| lia].
  rewrite Nat2Z.id.
  destruct (nth_error COLORS i) as [c |] eqn:E; [now exists c |].
  apply nth_error_None in E. simpl in E. lia.
Qed.

End Sessions.

Lemma session_invariant_witness :
  Forall (fun it => 0 <= x it /\ 0 <= y it /\
                    exists c, array_get COLORS (color it) = Some c)
         (items (board (run demo_uid half_random initial_app
                          [TypePaste roster; ClickColor 5; ClickAddMagnets;
                           ClickAddLabel; ClickDelete 1;
                           DragRelease (Some demo_rect) 0 demo_info]))).
Proof.
  apply (session_invariant demo_uid half_random).
  intros n. discriminate.
Defined.

Lemma NoDup_map_inj {A B : Type} (f : A -> B) l a a' :
  NoDup (map f l) -> In a l -> In a' l -> f a = f a' -> a = a'.
Proof.
  induction l as [| h l IH]; simpl; intros Hnd Ha Ha' E; [contradiction |].
  inversion Hnd as [| ? ? Hnin Hnd']; subst.
  destruct Ha as [-> | Ha], Ha' as [-> | Ha']; auto.
  - exfalso. apply Hnin. rewrite E. now apply in_map.
  - exfalso. apply Hnin. rewrite <- E. now apply in_map.
Qed.



(** ** Auto-save and load *)

Lemma stringify_compact_head v :
  exists c r, stringify_compact v = c :: r /\ value_start c = true.
Proof.
  destruct v as [| [] | n | s | [| v0 vs] | [| kv ms]];
    try (eexists; eexists; split; reflexivity).
  destruct (print_number_head n) as (c & r & E & H & _).
  exists c, r. split; assumption.
Qed.

Lemma parse_number_leaf fuel q rest :
  printable q -> number_end rest = true ->
  parse_value (S fuel) (print_number q ++ rest) = Some (JNum q, rest).
Proof.
  intros Hq Hrest.
  pose proof (parse_print_number q rest Hq Hrest) as Hp.
  destruct (print_number_head q) as (c & r & E & _ & Hc).
  rewrite E in *. simpl app in *.
  rewrite parse_value_number by assumption. rewrite Hp. reflexivity.
Qed.

Lemma parse_elements_close f s v rest :
  parse_value f s = Some (v, "]"%char :: rest) ->
  parse_elements (S f) s = Some ([v], rest).
Proof. intros H. cbn [parse_elements]. rewrite H. reflexivity. Qed.

Lemma parse_members_close f r0 k r2 v rest :
  parse_string r0 = Some (k, ":"%char :: r2) ->
  parse_value f r2 = Some (v, "}"%char :: rest) ->
  parse_members (S f) (quote :: r0) = Some ([(k, v)], rest).
Proof.
  intros H1 H2. cbn [parse_members].
  rewrite (skip_ws_start quote r0) by reflexivity.
  change (Ascii.eqb quote quote) with true. cbv iota. rewrite H1.
  rewrite (skip_ws_start ":" r2) by reflexivity.
  change (Ascii.eqb ":" ":") with true. cbv iota. rewrite H2.
  reflexivity.
Qed.

Lemma compact_elems_cons pr v vs tail :
  compact_elems pr (v :: vs) ++ tail
  = ","%char :: pr v ++ compact_elems pr vs ++ tail.
Proof. simpl. rewrite <- app_assoc. reflexivity. Qed.

Lemma compact_members_cons pr k v ms tail :
  compact_members pr ((k, v) :: ms) ++ tail
  = ","%char :: print_string k ++ ":"%char :: pr v ++
    compact_members pr ms ++ tail.
Proof.
  cbn [compact_members fst snd]. fold (compact_members pr).
  rewrite <- !app_comm_cons, <- !app_assoc, <- !app_comm_cons, <- !app_assoc.
  reflexivity.
Qed.

Lemma compact_elements vs :
  Forall reads_back_compact vs -> forall v0, reads_back_compact v0 ->
  exists n, forall fuel rest, (n <= fuel)%nat ->
    parse_elements fuel
      (stringify_compact v0 ++ compact_elems stringify_compact vs ++
       "]"%char :: rest)
    = Some (v0 :: vs, rest).
Proof.
  induction 1 as [| v1 vs H1 _ IH]; intros v0 [n0 H0].
  - exists (S n0). intros [| f] rest Hf; [lia |].
    apply parse_elements_close. apply H0; [lia | reflexivity].
  - destruct (IH v1 H1) as [n1 Hn1].
    exists (S (Nat.max n0 n1)). intros [| f] rest Hf; [lia |].
    rewrite compact_elems_cons.
    eapply parse_elements_more.
    + apply H0; [lia | reflexivity].
    + apply Hn1. lia.
Qed.

Lemma compact_members_read ms :
  Forall (fun kv => reads_back_compact (snd kv)) ms ->
  forall k0 v0, reads_back_compact v0 ->
  exists n, forall fuel rest, (n <= fuel)%nat ->
    parse_members fuel
      (print_string k0 ++ ":"%char :: stringify_compact v0 ++
       compact_members stringify_compact ms ++ "}"%char :: rest)
    = Some ((k0, v0) :: ms, rest).
Proof.
  induction 1 as [| [k1 v1] ms H1 _ IH]; intros k0 v0 [n0 H0].
  - exists (S n0). intros [| f] rest Hf; [lia |].
    destruct (parse_print_string k0
                (":"%char :: stringify_compact v0 ++
                 compact_members stringify_compact [] ++ "}"%char :: rest))
      as (r0 & -> & Hr0).
    eapply parse_members_close; [exact Hr0 |].
    apply H0; [lia | reflexivity].
  - destruct (IH k1 v1 H1) as [n1 Hn1].
    exists (S (Nat.max n0 n1)). intros [| f] rest Hf; [lia |].
    rewrite compact_members_cons.
    destruct (parse_print_string k0
                (":"%char :: stringify_compact v0 ++
                 ","%char :: print_string k1 ++ ":"%char :: stringify_compact v1 ++
                 compact_members stringify_compact ms ++ "}"%char :: rest))
      as (r0 & -> & Hr0).
    eapply parse_members_more; [exact Hr0 | |].
    + apply H0; [lia | reflexivity].
    + apply Hn1. lia.
Qed.

Lemma wf_reads_back_compact v : wf_value v -> reads_back_compact v.
Proof.
  induction v as [| b | n | s | l IH | ms IH] using value_ind; intros Hwf.
  - exists 1%nat. intros [| f] rest Hf _; [lia | reflexivity].
  - exists 1%nat. intros [| f] rest Hf _; [lia |]. destruct b; reflexivity.
  - inversion Hwf; subst.
    exists 1%nat. intros [| f] rest Hf Hr; [lia |].
    now apply parse_number_leaf.
  - exists 1%nat. intros [| f] rest Hf _; [lia |].
    apply (parse_print_leaf_string f 0 s rest).
  - inversion Hwf as [| | | | l' Hl |]; subst.
    assert (Hrb : Forall reads_back_compact l).
    { clear Hwf. induction IH as [| v l Hv _ IHl]; inversion Hl; subst;
        constructor; auto. }
    destruct Hrb as [| v0 vs H0 Hvs].
    + exists 1%nat. intros [| f] rest Hf _; [lia | reflexivity].
    + destruct (compact_elements vs Hvs v0 H0) as [n Hn].
      exists (S n). intros [| f] rest Hf _; [lia |].
      cbn [stringify_compact]. norm_app.
      destruct (stringify_compact_head v0) as (c & r & E & Hc).
      eapply parse_value_array with (c := c).
      * rewrite E. simpl app. apply skip_ws_start, value_start_not_ws, Hc.
      * exact Hc.
      * apply Hn. lia.
  - inversion Hwf as [| | | | | ms' Hnd Hms]; subst.
    assert (Hrb : Forall (fun kv => reads_back_compact (snd kv)) ms).
    { clear Hwf Hnd. induction IH as [| kv ms Hv _ IHl]; inversion Hms; subst;
        constructor; auto. }
    destruct Hrb as [| [k0 v0] ms H0 Hvs].
    + exists 1%nat. intros [| f] rest Hf _; [lia | reflexivity].
    + destruct (compact_members_read ms Hvs k0 v0 H0) as [n Hn].
      exists (S n). intros [| f] rest Hf _; [lia |].
      rewrite <- (obj_of_members_NoDup _ Hnd) at 2.
      cbn [stringify_compact fst snd]. norm_app.
      eapply parse_value_object with (c := quote).
      * unfold print_string. simpl app. apply skip_ws_start. reflexivity.
      * reflexivity.
      * apply Hn. lia.
Qed.

(** [JSON.parse (JSON.stringify (v)) = v] on well-formed values. *)
Lemma parse_stringify_compact v :
  wf_value v -> JSON.parse (JSON_stringify_compact v) = Some v.
Proof.
  intros Hwf. destruct (wf_reads_back_compact v Hwf) as [n Hn].
  unfold JSON.parse, JSON_stringify_compact.
  rewrite list_ascii_of_string_of_list_ascii.
  set (s := stringify_compact v).
  rewrite <- (parse_value_fuel (Nat.max n (2 * List.length s + 1)) s) by lia.
  rewrite <- (app_nil_r s) at 2. unfold s.
  rewrite Hn by (lia || reflexivity). reflexivity.
Qed.

Lemma store_get_set k v st : store_get k (store_set k v st) = Some v.
Proof.
  induction st as [| [k' v'] st IH]; simpl.
  - now rewrite String.eqb_refl.
  - destruct (String.eqb k' k) eqn:E; simpl; rewrite E; [reflexivity | exact IH].
Qed.

Lemma store_get_set_other k k' v st :
  k' <> k -> store_get k' (store_set k v st) = store_get k' st.
Proof.
  intros Hk. induction st as [| [k0 v0] st IH]; simpl.
  - destruct (String.eqb_spec k k'); [congruence | reflexivity].
  - destruct (String.eqb_spec k0 k) as [-> | E]; simpl.
    + destruct (String.eqb_spec k k'); [congruence | reflexivity].
    + destruct (String.eqb k0 k'); [reflexivity | exact IH].
Qed.

Lemma store_set_set k v v' st :
  store_set k v (store_set k v' st) = store_set k v st.
Proof.
  induction st as [| [k0 v0] st IH]; simpl.
  - now rewrite String.eqb_refl.
  - destruct (String.eqb k0 k) eqn:E; simpl; rewrite E; [reflexivity |].
    f_equal. exact IH.
Qed.

Lemma stringify_compact_nonempty v :
  Boolean_string (JSON_stringify_compact v) = true.
Proof.
  unfold JSON_stringify_compact.
  destruct (stringify_compact_head v) as (c & r & -> & _). reflexivity.
Qed.



(** The load effect never fails and never half-applies: with a forbidden
    store, no saved text, an empty one or one that does not parse, the
    board stays as it is; otherwise the parsed value is installed as it
    is, without the [items]/[settings] test that import makes. *)
Theorem loadSaved_cases (ls : LocalStorage) (cur : value) :
  (ls = None -> loadSaved ls cur = cur) /\
  (forall st, ls = Some st -> store_get board_key st = None ->
     loadSaved ls cur = cur) /\
  (forall st, ls = Some st -> store_get board_key st = Some ""%string ->
     loadSaved ls cur = cur) /\
  (forall st saved, ls = Some st -> store_get board_key st = Some saved ->
     JSON.parse saved = None -> loadSaved ls cur = cur) /\
  (forall st saved json, ls = Some st -> store_get board_key st = Some saved ->
     JSON.parse saved = Some json -> loadSaved ls cur = json).
Proof.
  unfold loadSaved, getItem. repeat split.
  - intros ->. reflexivity.
  - intros st -> ->. reflexivity.
  - intros st -> ->. reflexivity.
  - intros st saved -> -> ->. now destruct (Boolean_string saved).
  - intros st saved json -> -> Hp. rewrite Hp.
    destruct (Boolean_string saved) eqn:E; [reflexivity |].
    unfold Boolean_string in E. apply negb_false_iff, String.eqb_eq in E.
    subst saved. discriminate Hp.
Qed.

Lemma loadSaved_cases_witness :
  loadSaved (Some [(board_key, "{}"%string)]) (value_of_Board demo_board) = JObj [].
Proof.
  destruct (loadSaved_cases (Some [(board_key, "{}"%string)])
              (value_of_Board demo_board)) as (_ & _ & _ & _ & H).
  apply (H [(board_key, "{}"%string)] "{}"%string); reflexivity.
Defined.

(** A forbidden store stops neither effect and stays as it is; an
    available one holds, after a save, the compact text of the board under
    the board key and every other key as before. *)
Theorem autoSave_spec (ls : LocalStorage) (board : value) :
  (ls = None -> autoSave ls board = None) /\
  (forall st, ls = Some st ->
     exists st', autoSave ls board = Some st' /\
       store_get board_key st' = Some (JSON_stringify_compact board) /\
       forall k, k <> board_key -> store_get k st' = store_get k st).
Proof.
  split.
  - intros ->. reflexivity.
  - intros st ->. eexists. split; [reflexivity |].
    split; [apply store_get_set |].
    intros k Hk. now apply store_get_set_other.
Qed.

Lemma autoSave_spec_witness :
  exists st', autoSave (Some [(intro_key, "1"%string)]) Null = Some st' /\
    store_get board_key st' = Some (JSON_stringify_compact Null) /\
    forall k, k <> board_key ->
      store_get k st' = store_get k [(intro_key, "1"%string)].
Proof.
  destruct (autoSave_spec (Some [(intro_key, "1"%string)]) Null) as (_ & H).
  exact (H _ eq_refl).
Defined.



(** On a store without saved board, or a forbidden one, the session starts
    with the default board: no items, grid and snap on, unlocked. *)
Theorem mount_fresh (ls : LocalStorage) :
  getItem ls board_key = None \/ getItem ls board_key = Some None ->
  fst (mount ls) = value_of_Board DEFAULT_BOARD /\
  snd (mount ls) = autoSave ls (value_of_Board DEFAULT_BOARD).
Proof. unfold mount. intros [-> | ->]; split; reflexivity. Qed.

Lemma mount_fresh_witness :
  fst (mount None) = value_of_Board DEFAULT_BOARD /\
  snd (mount None) = autoSave None (value_of_Board DEFAULT_BOARD).
Proof. apply mount_fresh. left. reflexivity. Defined.

(** ** The intro overlay *)

(** The intro is shown on a store that has no dismissal yet, is never
    shown again once dismissed, and is not shown at all where the store
    is forbidden.  Dismissing hides it at once in every case, and leaves
    the saved board alone. *)
Theorem intro_spec (ls : LocalStorage) :
  (forall st, ls = Some st -> store_get intro_key st = None ->
     introEffect true ls = true) /\
  introEffect true (fst (dismissIntro true ls)) = false /\
  snd (dismissIntro true ls) = false /\
  (ls = None -> introEffect true ls = false) /\
  getItem (fst (dismissIntro true ls)) board_key = getItem ls board_key.
Proof.
  repeat split.
  - intros st -> H. simpl. rewrite H. reflexivity.
  - destruct ls as [st |]; simpl; [| reflexivity].
    rewrite store_get_set. reflexivity.
  - intros ->. reflexivity.
  - destruct ls as [st |]; simpl; [| reflexivity].
    rewrite store_get_set_other by discriminate. reflexivity.
Qed.

Lemma intro_spec_witness : introEffect true (Some []) = true.
Proof.
  destruct (intro_spec (Some [])) as (H & _).
  apply (H [] eq_refl eq_refl).
Defined.

(** Saving the board never brings the intro back: the flag that
    [dismissIntro] writes survives every auto-save. *)
Theorem autoSave_keeps_intro (ls : LocalStorage) (board : value) :
  introEffect true (autoSave ls board) = introEffect true ls.
Proof.
  destruct ls as [st |]; simpl; [| reflexivity].
  rewrite store_get_set_other by discriminate. reflexivity.
Qed.

(** ** Drag, then export and import *)


